(** * A shallow embedding of node-concurrent-worker-tasks

    Two pool implementations live in the repository:
    - [src/index.js]: the shift/push-back pool with a memory gate
      ([getMemPercent]) and [terminateExcessWorkers];  modelled in
      [Module IndexPool];
    - [src/unnamed/part_001]: the busy-flag pool with a FIFO [taskQueue];
      modelled in [Module QueuePool].

    The memory gate computes with JavaScript numbers: [Module Mem] models
    IEEE 754 binary64 arithmetic (round to nearest, ties to even, gradual
    underflow, overflow to an infinity) on exact rationals, together with
    [Number.prototype.toFixed(1)] and the string-to-number conversion of
    the comparisons. Memory readings are byte counts, as [os.freemem()]
    returns them. *)

From Stdlib Require Import List ZArith Lia Bool Arith Permutation.
From Stdlib Require Import QArith Qround Qabs Qpower Lqa.
Import ListNotations.
Open Scope Z_scope.

(** JavaScript values that the modelled functions return. *)
Inductive jsval :=
| JUndefined
| JBool (b : bool)
| JNumTenths (n : Z).   (** a number with one decimal, as tenths *)

(** ** Memory gate of [src/index.js] *)
Module Mem.

(** *** Binary64 arithmetic *)

Definition pow2 (e : Z) : Q := Qpower (2 # 1) e.

(** [x < y] on rationals, as a boolean. *)
Definition Qltb (x y : Q) : bool := negb (Qle_bool y x).

(** [floor (log2 x)] for [x > 0], from the bit lengths of the reduced
    numerator and denominator. *)
Definition ilog2 (x : Q) : Z :=
  let x0 := Qred x in
  let k := Z.log2 (Qnum x0) - Z.log2 (Zpos (Qden x0)) in
  if Qle_bool (pow2 k) x0 then k else k - 1.

(** Rounding to an integer, ties to the even one. *)
Definition round_even (y : Q) : Z :=
  let f := Qfloor y in
  match Qcompare (y - inject_Z f) (1 # 2) with
  | Lt => f
  | Gt => f + 1
  | Eq => if Z.even f then f else f + 1
  end.

(** Rounding of [x > 0] to 53 significant bits, the last bit weighing
    [2^e] with [e >= -1074] (subnormals below [2^-1022]). *)
Definition fl_pos (x : Q) : Q :=
  let e := Z.max (ilog2 x - 52) (-1074) in
  inject_Z (round_even (x * pow2 (- e))) * pow2 e.

(** Round to nearest, ties to even, with an unbounded exponent above. *)
Definition fl (x : Q) : Q :=
  match Qcompare x 0 with
  | Eq => 0
  | Gt => fl_pos x
  | Lt => - fl_pos (- x)
  end.

(** A JavaScript number. The sign of a zero is not kept: every zero that
    the gate can compute is [+0] (a difference of equal numbers, a
    quotient of [0] by a positive divisor), or goes through [toFixed],
    which prints [-0] as [0]. *)
Inductive num :=
| Fin (q : Q)
| PInf
| NInf
| NaN.

Definition num_neg (v : num) : num :=
  match v with
  | Fin q => Fin (- q)
  | PInf => NInf
  | NInf => PInf
  | NaN => NaN
  end.

(** The double nearest to an exact result: [Infinity] when the rounded
    value reaches [2^1024]. *)
Definition dbl (x : Q) : num :=
  let r := fl x in
  if Qle_bool (pow2 1024) (Qabs r)
  then (if Qle_bool 0 x then PInf else NInf)
  else Fin r.

(** [a - b]. *)
Definition num_sub (a b : num) : num :=
  match a, b with
  | Fin x, Fin y => dbl (x - y)
  | NaN, _ | _, NaN => NaN
  | Fin _, PInf | NInf, Fin _ | NInf, PInf => NInf
  | Fin _, NInf | PInf, Fin _ | PInf, NInf => PInf
  | _, _ => NaN
  end.

(** [a * b]. *)
Definition num_mul (a b : num) : num :=
  match a, b with
  | Fin x, Fin y => dbl (x * y)
  | NaN, _ | _, NaN => NaN
  | Fin x, i | i, Fin x =>
      match Qcompare x 0 with Eq => NaN | Gt => i | Lt => num_neg i end
  | PInf, PInf | NInf, NInf => PInf
  | _, _ => NInf
  end.

(** [a / b]; a zero divisor is [+0]. *)
Definition num_div (a b : num) : num :=
  match a, b with
  | Fin x, Fin y =>
      if Qeq_bool y 0
      then match Qcompare x 0 with Eq => NaN | Gt => PInf | Lt => NInf end
      else dbl (x / y)
  | NaN, _ | _, NaN => NaN
  | Fin _, _ => Fin 0
  | i, Fin y => match Qcompare y 0 with Lt => num_neg i | _ => i end
  | _, _ => NaN
  end.

(** [Number(v.toFixed(1))]: [toFixed] takes the integer [n] with [n / 10]
    nearest to [|v|], the larger one on ties, prints it with one decimal
    and the sign of [v]; from [1e21] on it prints [String(v)]; [NaN] and
    the infinities print as ["NaN"], ["Infinity"], ["-Infinity"]. The
    string is read back as the double nearest to its decimal value. *)
Definition toFixed1 (v : num) : num :=
  match v with
  | Fin x =>
      if Qle_bool (inject_Z (10 ^ 21)) (Qabs x) then Fin x
      else
        let n := Qfloor (10 * Qabs x + (1 # 2)) in
        Fin (fl (if Qle_bool 0 x then inject_Z n / 10
                 else - (inject_Z n / 10)))
  | v => v
  end.

(** [a > t] and [a < t] for a number [t]: false when [a] is [NaN]. *)
Definition num_gt (a : num) (t : Q) : bool :=
  match a with Fin x => Qltb t x | PInf => true | _ => false end.
Definition num_lt (a : num) (t : Q) : bool :=
  match a with Fin x => Qltb x t | NInf => true | _ => false end.

(** *** The gate *)

(** [os.freemem() / 1024 / 1024] for a reading of [bytes]. *)
Definition toMB (bytes : Z) : num :=
  num_div (num_div (Fin (fl (inject_Z bytes))) (Fin 1024)) (Fin 1024).

(** [((memUsed / freeMemoryAvailable) * 100).toFixed(1)], as the number
    each comparison of [getMemPercent] converts it to; [freemem] is
    [os.freemem()] at the call. *)
Definition memPercent (freeMemoryAvailable : num) (freemem : Z) : num :=
  let freeMemory := toMB freemem in
  let memUsed := num_sub freeMemoryAvailable freeMemory in
  toFixed1 (num_mul (num_div memUsed freeMemoryAvailable) (Fin 100)).

(** Outcome of a call that may throw a [CustomError] with a status. *)
Inductive outcome (A : Type) :=
| Throw (status : Z)
| Return (v : A).
Arguments Throw {A} status.
Arguments Return {A} v.

(** [getMemPercent]: throws [CustomError(..., 503)] when [memPercent]
    exceeds [memThreshold], otherwise returns
    [memPercent < this.memThreshold]. *)
Definition getMemPercent (freeMemoryAvailable : num) (freemem : Z)
  (memThreshold : Q) : outcome jsval :=
  let memPercent := memPercent freeMemoryAvailable freemem in
  if num_gt memPercent memThreshold then Throw 503
  else Return (JBool (num_lt memPercent memThreshold)).

(** *** Exact quantities the gate approximates *)

(** The used share of a baseline of [base] bytes, in percent. *)
Definition usedPercent (base free : Z) : Q :=
  100 * (inject_Z (base - free) / inject_Z base).

(** The nearest tenth, the larger one on ties, in tenths. *)
Definition roundTenths (u : Q) : Z := Qfloor (10 * u + (1 # 2)).

(** A percentage [u] within [tieDelta / 10] percentage points of a
    rounding tie [k + 0.05]. *)
Definition tieDelta : Q := 1 # 1000000000000.
Definition nearTie (u : Q) : bool :=
  let y := (10 * u + (1 # 2))%Q in
  let d := (y - inject_Z (Qfloor y))%Q in
  Qltb d tieDelta || Qltb (1 - d) tieDelta.

(** The formula [(totalAvailable - currentlyFree) / totalAvailable] of the
    specification, with [totalAvailable] the system's total memory, in
    percent. *)
Definition spec_memUsedPercent (totalmem free : Z) : Q :=
  usedPercent totalmem free.

End Mem.

(** ** The submission-rate gate of [src/index.js] *)
Module Rate.

(** [TaskManager]: [lastTaskTime] ([null] as [None]) and [idleThreshold]. *)
Record taskManager := mkTaskManager {
  lastTaskTime : option Z;
  idleThreshold : Z }.

(** [canExecuteTask()] called at time [now] ([Date.now()]): the answer and
    the updated manager. *)
Definition canExecuteTask (now : Z) (tm : taskManager) : bool * taskManager :=
  match lastTaskTime tm with
  | None => (true, mkTaskManager (Some now) (idleThreshold tm))
  | Some last =>
      let canExecute := idleThreshold tm <=? now - last in
      (canExecute,
       if canExecute then mkTaskManager (Some now) (idleThreshold tm) else tm)
  end.

(** The times, among successive calls at [nows], that got [true]. *)
Fixpoint accepted (tm : taskManager) (nows : list Z) : list Z :=
  match nows with
  | [] => []
  | now :: rest =>
      let '(ok, tm') := canExecuteTask now tm in
      if ok then now :: accepted tm' rest else accepted tm' rest
  end.

(** Consecutive elements at least [d] apart. *)
Fixpoint spaced (d : Z) (l : list Z) : Prop :=
  match l with
  | a :: ((b :: _) as r) => d <= b - a /\ spaced d r
  | _ => True
  end.

End Rate.

(** ** The shift/push-back pool of [src/index.js] *)
Module IndexPool.
Import Mem.

(** A pool entry [{ id: workerId, worker }]; [whandle] is the identity of
    the [Worker] object; [handleError] tells whether [buildPool] attached
    its logging [handleError] listener to it. *)
Record worker := mkWorker { wid : nat; whandle : nat; handleError : bool }.

(** Pool bookkeeping. [pool] is [this.pool]; [inflight] are the entries a
    [runTask] has shifted out and handed to [executeWorker]; [pending] are
    workers of [addNewWorkerToPool] waiting for ['online']; [spawned]
    counts [new Worker] calls (the next handle); [terminated] lists the
    handles [terminate()] was called on; [errlog] counts logged errors. *)
Record istate := mkIState {
  pool : list worker;
  inflight : list worker;
  pending : list worker;
  spawned : nat;
  terminated : list nat;
  errlog : nat }.

(** [freememAtLoad] is the [os.freemem()] reading taken when the module
    loads. *)
Record config := mkConfig {
  poolSize : nat;
  memThreshold : Q;
  returnLog : bool;
  freememAtLoad : Z }.

(** The module constant [freeMemoryAvailable = os.freemem() / 1024 / 1024]. *)
Definition freeMemoryAvailable (c : config) : num := toMB (freememAtLoad c).

Definition set_pool (s : istate) (p : list worker) : istate :=
  mkIState p (inflight s) (pending s) (spawned s) (terminated s) (errlog s).
Definition set_inflight (s : istate) (l : list worker) : istate :=
  mkIState (pool s) l (pending s) (spawned s) (terminated s) (errlog s).

(** An ['error'] event of [w]: [buildPool]'s [handleError] logs it. *)
Definition log_error (w : worker) (s : istate) : istate :=
  if handleError w
  then mkIState (pool s) (inflight s) (pending s) (spawned s) (terminated s)
         (S (errlog s))
  else s.

(** What [new Worker(...)] does, per call (indexed by the call number):
    it comes online, it comes online and later emits ['error'], or it
    throws synchronously. *)
Inductive spawn := SpawnOk | SpawnAsyncError | SpawnThrow.

(** How the executor [async (resolve) => { ... }] of [buildPool]'s
    [new Promise] ends: it calls [resolve()], or a synchronous throw of
    [new Worker] rejects the promise of the async executor itself, which
    nothing handles. That unhandled rejection ends the process under
    Node's default [--unhandled-rejections=throw] mode. *)
Inductive buildEnd := Resolved | UnhandledRejection.

(** The [for] loop of [buildPool]: no [await] inside, so it runs to the end
    in one go, or up to a synchronous throw, which skips the remaining
    iterations. A worker's later ['error'] is logged by [handleError]. *)
Fixpoint buildLoop (env : nat -> spawn) (i fuel : nat) (s : istate)
  : istate * buildEnd :=
  match fuel with
  | O => (s, Resolved)
  | S fuel' =>
      let h := spawned s in
      let w := mkWorker (S i) h true in
      match env h with
      | SpawnThrow =>
          (mkIState (pool s) (inflight s) (pending s) (S h)
             (terminated s) (errlog s), UnhandledRejection)
      | SpawnOk =>
          buildLoop env (S i) fuel'
            (mkIState (pool s ++ [w]) (inflight s) (pending s) (S h)
               (terminated s) (errlog s))
      | SpawnAsyncError =>
          buildLoop env (S i) fuel'
            (mkIState (pool s ++ [w]) (inflight s) (pending s) (S h)
               (terminated s) (S (errlog s)))
      end
  end.

Definition buildPool (c : config) (env : nat -> spawn) (s : istate)
  : istate * buildEnd :=
  buildLoop env 0 (poolSize c) s.

(** [this.minWorkers] is read but never assigned anywhere in the class. *)
Definition minWorkers : jsval := JUndefined.

(** [n > v] for a number [n]: [undefined] converts to [NaN], and every
    comparison with [NaN] is false. *)
Definition js_gt_nat (n : nat) (v : jsval) : bool :=
  match v with
  | JUndefined => false
  | JBool b => Nat.ltb (if b then 1 else 0)%nat n
  | JNumTenths t => Z.ltb t (10 * Z.of_nat n)
  end.

(** [while (this.pool.length > bound) { pop; terminate }]: each iteration
    pops, so [length pool] iterations bound the loop. *)
Fixpoint popLoop (bound : jsval) (fuel : nat) (p : list worker)
  (term : list nat) : list worker * list nat :=
  match fuel with
  | O => (p, term)
  | S fuel' =>
      if js_gt_nat (length p) bound then
        match rev p with
        | [] => (p, term)
        | w :: r => popLoop bound fuel' (rev r) (term ++ [whandle w])
        end
      else (p, term)
  end.

Definition terminateExcessWorkers (s : istate) : istate :=
  let '(p, t) := popLoop minWorkers (length (pool s)) (pool s) [] in
  mkIState p (inflight s) (pending s) (spawned s) (terminated s ++ t)
    (errlog s).

Definition terminateAllWorkers (s : istate) : istate :=
  let '(p, t) := popLoop (JNumTenths 0) (length (pool s)) (pool s) [] in
  mkIState p (inflight s) (pending s) (spawned s) (terminated s ++ t)
    (errlog s).

(** [messageListener]: the worker goes back only when the pool has room. *)
Definition pushBack (c : config) (w : worker) (p : list worker) :=
  if Nat.ltb (length p) (poolSize c) then p ++ [w] else p.

(** What the shifted worker does with the posted task. *)
Inductive exec := ExecMessage | ExecError.

Inductive response :=
| RespOk (status : Z) (worker_id : nat) (capacity : jsval)
| RespErr (status : Z).

(** One [run(task)] carried out without other calls interleaved.
    [canExec] is [taskManager.canExecuteTask()]; [free] is [os.freemem()]
    when [getMemPercent] runs; [ex] is the worker's reaction. [None] is a
    call that gives no response: [while (pool.length === 0)] spins on a
    pool that stays empty, or [buildPool] ends in an unhandled rejection
    and the process exits. *)
Definition run (c : config) (env : nat -> spawn) (canExec : bool) (free : Z)
  (ex : exec) (s : istate) : option (istate * response) :=
  let status := if canExec then 200 else 429 in
  let '(s1, e) := match pool s with
                  | [] => buildPool c env s
                  | _ => (s, Resolved)
                  end in
  match e with UnhandledRejection => None | Resolved =>
  match pool s1 with
  | [] => None
  | freeWorker :: rest =>
      let s2 := set_pool s1 rest in
      match getMemPercent (freeMemoryAvailable c) free (memThreshold c) with
      | Throw st => Some (terminateExcessWorkers s2, RespErr st)
      | Return memStats =>
          match ex with
          | ExecMessage =>
              Some (terminateExcessWorkers
                      (set_pool s2 (pushBack c freeWorker (pool s2))),
                    RespOk status (wid freeWorker) memStats)
          | ExecError =>
              Some (terminateExcessWorkers (log_error freeWorker s2),
                    RespErr 500)
          end
      end
  end end.

(** [addNewWorkerToPool] up to the [new Worker] call: nothing when the
    pool is full; a synchronous throw is caught and rejected; otherwise the
    worker, with id [-(pool.length + 1)-], waits for ['online']. *)
Definition addNewWorkerStart (c : config) (env : nat -> spawn) (s : istate)
  : istate :=
  if Nat.leb (poolSize c) (length (pool s)) then s else
  let h := spawned s in
  match env h with
  | SpawnThrow =>
      mkIState (pool s) (inflight s) (pending s) (S h) (terminated s)
        (errlog s)
  | _ =>
      mkIState (pool s) (inflight s)
        (pending s ++ [mkWorker (S (length (pool s))) h false]) (S h)
        (terminated s) (errlog s)
  end.

(** The ['online'] handler: [if (this.pool.length < this.poolSize) push]. *)
Definition onOnline (c : config) (w : worker) (p : list worker) :=
  if Nat.ltb (length p) (poolSize c) then p ++ [w] else p.

(** The atomic steps of the pool bookkeeping between [await] points, in any
    interleaving of concurrent [run] calls and worker events. *)
Inductive istep (c : config) (env : nat -> spawn) : istate -> istate -> Prop :=
| st_build s :
    (** the constructor's, or [runTask]'s when [pool.length === 0]; after
        an unhandled rejection the process is gone *)
    pool s = [] -> snd (buildPool c env s) = Resolved ->
    istep c env s (fst (buildPool c env s))
| st_take s w rest :
    (** [this.pool.shift()] and a passing [getMemPercent] *)
    pool s = w :: rest ->
    istep c env s (mkIState rest (w :: inflight s) (pending s) (spawned s)
                     (terminated s) (errlog s))
| st_drop s w rest :
    (** [this.pool.shift()] and a throwing [getMemPercent] *)
    pool s = w :: rest -> istep c env s (set_pool s rest)
| st_message s l1 w l2 :
    inflight s = l1 ++ w :: l2 ->
    istep c env s (mkIState (pushBack c w (pool s)) (l1 ++ l2) (pending s)
                     (spawned s) (terminated s) (errlog s))
| st_error s l1 w l2 :
    inflight s = l1 ++ w :: l2 ->
    istep c env s (log_error w (set_inflight s (l1 ++ l2)))
| st_add s : istep c env s (addNewWorkerStart c env s)
| st_online s l1 w l2 :
    pending s = l1 ++ w :: l2 ->
    istep c env s (mkIState (onOnline c w (pool s)) (inflight s) (l1 ++ l2)
                     (spawned s) (terminated s) (errlog s))
| st_excess s : istep c env s (terminateExcessWorkers s)
| st_all s : istep c env s (terminateAllWorkers s).

Definition init : istate := mkIState [] [] [] 0 [] 0.

Inductive reachable (c : config) (env : nat -> spawn) : istate -> Prop :=
| reach_init : reachable c env init
| reach_step s s' : reachable c env s -> istep c env s s' ->
                    reachable c env s'.

End IndexPool.

(** ** The busy-flag pool with a task queue of [src/unnamed/part_001] *)
Module QueuePool.

(** A pool entry [{ id, worker, busy }] with the fields [assignTasks]
    attaches: [resolve] (the promise it settles) and [taskId]. *)
Record qworker := mkQWorker {
  qid : nat;
  qh : nat;                 (** identity of the [Worker] object *)
  qbusy : bool;
  qresolve : option nat;    (** the pending [run] promise, by identity *)
  qtaskId : option nat }.

(** A [taskQueue] entry [{ task, taskId, resolve, reject }]: the payload,
    the id, and the identity of the promise whose executor pushed it. *)
Record qentry := mkQEntry { e_task : nat; e_taskId : nat; e_promise : nat }.

(** What the bookkeeping records: a [postMessage] to a worker, and a
    worker's [busy] flag going back to [false]. *)
Inductive lev :=
| LPost (h : nat) (promise : nat)
| LIdle (h : nat).

(** [qdead] are the workers whose thread has died after an uncaught error
    (the environment: such a worker posts no further message). *)
Record qstate := mkQState {
  qpool : list qworker;
  taskQueue : list qentry;
  qlog : list lev;          (** oldest first *)
  settled : list nat;       (** promises resolved, oldest first *)
  nexth : nat;
  building : nat;           (** creations [buildPool] still has to make *)
  qterminated : list nat;
  qdead : list nat }.

Record qconfig := mkQConfig { qpoolSize : nat; qreturnLog : bool }.

(** [arr.find(P)] followed by a mutation [f] of the found object: the
    object found and the array with it mutated. *)
Fixpoint updFirst (P : qworker -> bool) (f : qworker -> qworker)
  (l : list qworker) : option (qworker * list qworker) :=
  match l with
  | [] => None
  | x :: r =>
      if P x then Some (x, f x :: r)
      else match updFirst P f r with
           | None => None
           | Some (w, r') => Some (w, x :: r')
           end
  end.

(** [freeWorker.busy = true; freeWorker.resolve = resolve;
    freeWorker.taskId = taskId] ([reject] is destructured but not stored). *)
Definition markBusy (e : qentry) (w : qworker) : qworker :=
  mkQWorker (qid w) (qh w) true (Some (e_promise e)) (Some (e_taskId e)).

(** [assignTasks]. *)
Definition assignTasks (s : qstate) : qstate :=
  match taskQueue s with
  | [] => s
  | e :: q =>
      match updFirst (fun w => negb (qbusy w)) (markBusy e) (qpool s) with
      | None => s
      | Some (w, p') =>
          mkQState p' q (qlog s ++ [LPost (qh w) (e_promise e)]) (settled s)
            (nexth s) (building s) (qterminated s) (qdead s)
      end
  end.

(** [run(task, taskId)]: the promise executor pushes and assigns. *)
Definition run (e : qentry) (s : qstate) : qstate :=
  assignTasks
    (mkQState (qpool s) (taskQueue s ++ [e]) (qlog s) (settled s) (nexth s)
       (building s) (qterminated s) (qdead s)).

(** [workerItem.busy = false; ...; workerItem.resolve = null]. *)
Definition markIdle (w : qworker) : qworker :=
  mkQWorker (qid w) (qh w) false None (qtaskId w).

(** [handleWorkerResult]: [None] is the [TypeError] of [workerItem.busy]
    when the worker is no longer in the pool. *)
Definition handleWorkerResult (h : nat) (s : qstate) : option qstate :=
  match updFirst (fun w => Nat.eqb (qh w) h) markIdle (qpool s) with
  | None => None
  | Some (w, p') =>
      let st := match qresolve w with
                | Some p => settled s ++ [p]
                | None => settled s
                end in
      Some (assignTasks
              (mkQState p' (taskQueue s) (qlog s ++ [LIdle h]) st (nexth s)
                 (building s) (qterminated s) (qdead s)))
  end.

(** [terminateAllWorkers]. *)
Definition terminateAllWorkers (s : qstate) : qstate :=
  mkQState [] (taskQueue s) (qlog s) (settled s) (nexth s) (building s)
    (qterminated s ++ map qh (qpool s)) (qdead s).

(** Events: a [run] call, a ['message'] or ['error'] from the worker with
    a given identity, the ['online'] of the worker [buildPool] is awaiting,
    and shutdown. *)
Inductive qev :=
| QRun (e : qentry)
| QMsg (h : nat)
| QErr (h : nat)
| QOnline
| QTermAll.

Definition qstep (c : qconfig) (s : qstate) (ev : qev) : option qstate :=
  match ev with
  | QRun e => Some (run e s)
  | QMsg h =>
      if existsb (Nat.eqb h) (qdead s) then None else handleWorkerResult h s
  | QErr h =>
      (** the ['error'] listener only logs; the thread is gone *)
      Some (mkQState (qpool s) (taskQueue s) (qlog s) (settled s) (nexth s)
              (building s) (qterminated s) (h :: qdead s))
  | QOnline =>
      (** [this.pool.push({ id: workerId, worker: newWorker, busy: false })] *)
      match building s with
      | O => None
      | S b =>
          Some (mkQState
                  (qpool s ++ [mkQWorker (S (length (qpool s))) (nexth s)
                                 false None None])
                  (taskQueue s) (qlog s) (settled s) (S (nexth s)) b
                  (qterminated s) (qdead s))
      end
  | QTermAll => Some (terminateAllWorkers s)
  end.

Fixpoint qrun (c : qconfig) (s : qstate) (evs : list qev) : option qstate :=
  match evs with
  | [] => Some s
  | ev :: evs' =>
      match qstep c s ev with
      | None => None
      | Some s' => qrun c s' evs'
      end
  end.

(** Right after the constructor: [buildPool] has started, no worker is
    online yet. *)
Definition qinit (c : qconfig) : qstate :=
  mkQState [] [] [] [] 1 (qpoolSize c) [] [].

(** Promises a trace submits, in order. *)
Fixpoint submitted (evs : list qev) : list nat :=
  match evs with
  | [] => []
  | QRun e :: evs' => e_promise e :: submitted evs'
  | _ :: evs' => submitted evs'
  end.

(** Promises posted to workers, in posting order. *)
Fixpoint posted (log : list lev) : list nat :=
  match log with
  | [] => []
  | LPost _ p :: l => p :: posted l
  | LIdle _ :: l => posted l
  end.

(** Whether the log leaves worker [h] with a task posted and not yet
    released. *)
Definition busyAfter (h : nat) (log : list lev) : bool :=
  fold_left (fun b ev => match ev with
                         | LPost h' _ => if Nat.eqb h h' then true else b
                         | LIdle h' => if Nat.eqb h h' then false else b
                         end) log false.

(** No worker receives a post while a previous post to it is unreleased. *)
Definition no_double_dispatch (log : list lev) : Prop :=
  forall l1 h p l2, log = l1 ++ LPost h p :: l2 -> busyAfter h l1 = false.

(** [buildPool] with the outcome of each [addWorkerToPool]: comes online,
    throws in [new Worker] (a rejection caught once, outside the loop), or
    emits ['error'] and never comes online (the [await] never returns). *)
Inductive qspawn := QOk | QThrow | QNoOnline.

(** Result: workers pushed, whether a failure was logged, whether the
    loop ended. *)
Fixpoint buildLoop (env : nat -> qspawn) (i fuel : nat) (p : list qworker)
  : list qworker * bool * bool :=
  match fuel with
  | O => (p, false, true)
  | S fuel' =>
      match env i with
      | QOk =>
          buildLoop env (S i) fuel'
            (p ++ [mkQWorker (S (length p)) i false None None])
      | QThrow => (p, true, true)
      | QNoOnline => (p, true, false)
      end
  end.

Definition buildPool (c : qconfig) (env : nat -> qspawn) :=
  buildLoop env 0 (qpoolSize c) [].

End QueuePool.

(** * Binary64 rounding: error bounds and exact cases *)
Module DoubleFacts.
Import Mem.

Lemma Qltb_iff x y : Qltb x y = true <-> (x < y)%Q.
Proof.
  unfold Qltb. rewrite negb_true_iff. split.
  - intros H. apply Qnot_le_lt. intros H'. apply Qle_bool_iff in H'. congruence.
  - intros H. destruct (Qle_bool y x) eqn:E; [|reflexivity].
    apply Qle_bool_iff in E. exfalso. apply (Qlt_not_le _ _ H E).
Qed.

Lemma Qltb_false x y : Qltb x y = false <-> (y <= x)%Q.
Proof.
  unfold Qltb. rewrite negb_false_iff. apply Qle_bool_iff.
Qed.

Lemma pow2_pos e : (0 < pow2 e)%Q.
Proof. apply Qpower_0_lt. reflexivity. Qed.

Lemma pow2_add a b : (pow2 (a + b) == pow2 a * pow2 b)%Q.
Proof. apply Qpower_plus. discriminate. Qed.

Lemma pow2_Z n : 0 <= n -> (pow2 n == inject_Z (2 ^ n))%Q.
Proof. intros Hn. unfold pow2. rewrite (Zpower_Qpower 2 n Hn). reflexivity. Qed.

Lemma pow2_le a b : a <= b -> (pow2 a <= pow2 b)%Q.
Proof. intros H. apply Qpower_le_compat_l; [exact H | discriminate]. Qed.

Lemma pow2_lt_inv a b : (pow2 a < pow2 b)%Q -> a < b.
Proof. intros H. apply (Qpower_lt_compat_l_inv (2#1)); [exact H | reflexivity]. Qed.

Lemma pow2_split e : (pow2 (- e) * pow2 e == 1)%Q.
Proof. rewrite <- pow2_add. replace (- e + e) with 0 by lia. reflexivity. Qed.

Lemma ilog2_lower x : (0 < x)%Q -> (pow2 (ilog2 x) <= Qred x)%Q.
Proof.
  intros Hx. unfold ilog2.
  assert (Hx0 : (0 < Qred x)%Q) by (rewrite Qred_correct; exact Hx).
  set (x0 := Qred x) in *. clearbody x0. destruct x0 as [a b].
  simpl Qnum; simpl Qden.
  assert (Ha : 0 < a).
  { unfold Qlt in Hx0. simpl in Hx0. lia. }
  set (k := Z.log2 a - Z.log2 (Z.pos b)).
  destruct (Qle_bool (pow2 k) (a # b)) eqn:E.
  - apply Qle_bool_iff. exact E.
  - apply Qlt_le_weak.
    pose proof (Z.log2_spec a Ha) as [Ha1 Ha2].
    pose proof (Z.log2_spec (Z.pos b) ltac:(lia)) as [Hb1 Hb2].
    pose proof (Z.log2_nonneg a). pose proof (Z.log2_nonneg (Z.pos b)).
    rewrite Qmake_Qdiv. apply Qlt_shift_div_l.
    { change 0%Q with (inject_Z 0). rewrite <- Zlt_Qlt. lia. }
    apply Qlt_le_trans with (pow2 (k - 1) * inject_Z (2 ^ Z.succ (Z.log2 (Z.pos b))))%Q.
    + apply Qmult_lt_l; [apply pow2_pos|]. rewrite <- Zlt_Qlt. exact Hb2.
    + rewrite <- pow2_Z by lia. rewrite <- pow2_add.
      replace (k - 1 + Z.succ (Z.log2 (Z.pos b))) with (Z.log2 a) by (unfold k; lia).
      rewrite pow2_Z by lia. rewrite <- Zle_Qle. exact Ha1.
Qed.

Lemma ilog2_lower' x : (0 < x)%Q -> (pow2 (ilog2 x) <= x)%Q.
Proof. intros Hx. rewrite <- (Qred_correct x) at 2. apply ilog2_lower, Hx. Qed.

Lemma ilog2_proper x x' : (x == x')%Q -> ilog2 x = ilog2 x'.
Proof. intros H. unfold ilog2. rewrite (Qred_complete x x' H). reflexivity. Qed.

Lemma round_even_proper y y' : (y == y')%Q -> round_even y = round_even y'.
Proof.
  intros H. unfold round_even. rewrite (Qfloor_comp y y' H).
  rewrite H. reflexivity.
Qed.



Lemma round_even_Z z : round_even (inject_Z z) = z.
Proof.
  unfold round_even. rewrite Qfloor_Z.
  replace (inject_Z z - inject_Z z ?= 1 # 2)%Q with Lt; [reflexivity|].
  symmetry. apply Qlt_alt. setoid_replace (inject_Z z - inject_Z z)%Q with 0%Q by ring.
  reflexivity.
Qed.

Lemma round_even_err y : (Qabs (inject_Z (round_even y) - y) <= 1 # 2)%Q.
Proof.
  pose proof (Qfloor_le y) as H1. pose proof (Qlt_floor y) as H2.
  rewrite inject_Z_plus in H2. change (inject_Z 1) with 1%Q in H2.
  unfold round_even. cbv zeta. set (f := Qfloor y) in *.
  apply Qabs_Qle_condition.
  destruct (Qcompare_spec (y - inject_Z f) (1 # 2)) as [E|E|E].
  - destruct (Z.even f); [|rewrite inject_Z_plus; change (inject_Z 1) with 1%Q];
      split; lra.
  - split; lra.
  - rewrite inject_Z_plus; change (inject_Z 1) with 1%Q.
    split; lra.
Qed.

Lemma round_even_nonneg y : (0 <= y)%Q -> 0 <= round_even y.
Proof.
  intros Hy. pose proof (Qfloor_resp_le _ _ Hy) as H. change 0%Q with (inject_Z 0) in H.
  rewrite Qfloor_Z in H. unfold round_even.
  destruct (_ ?= _)%Q; [destruct (Z.even _)|..]; lia.
Qed.

Lemma fl_pos_proper x x' : (x == x')%Q -> fl_pos x = fl_pos x'.
Proof.
  intros H. unfold fl_pos. rewrite (ilog2_proper x x' H).
  rewrite (round_even_proper (x * pow2 (- Z.max (ilog2 x' - 52) (-1074)))
                             (x' * pow2 (- Z.max (ilog2 x' - 52) (-1074)))).
  - reflexivity.
  - rewrite H. reflexivity.
Qed.

Lemma fl_proper x x' : (x == x')%Q -> fl x = fl x'.
Proof.
  intros H. unfold fl. rewrite H. destruct (x' ?= 0)%Q; [reflexivity| |].
  - f_equal. apply fl_pos_proper. rewrite H. reflexivity.
  - apply fl_pos_proper, H.
Qed.

Lemma fl_gt x : (0 < x)%Q -> fl x = fl_pos x.
Proof. intros H. unfold fl. rewrite (proj1 (Qgt_alt _ _) H). reflexivity. Qed.
Lemma fl_lt x : (x < 0)%Q -> fl x = (- fl_pos (- x))%Q.
Proof. intros H. unfold fl. rewrite (proj1 (Qlt_alt _ _) H). reflexivity. Qed.
Lemma fl_eq x : (x == 0)%Q -> fl x = 0%Q.
Proof. intros H. unfold fl. rewrite (proj1 (Qeq_alt _ _) H). reflexivity. Qed.

Lemma fl_pos_err x : (0 < x)%Q ->
  (Qabs (fl_pos x - x) <= x * pow2 (-53) + pow2 (-1075))%Q.
Proof.
  intros Hx. unfold fl_pos.
  pose proof (ilog2_lower' x Hx) as Hlo.
  set (k := ilog2 x) in *. set (e := Z.max (k - 52) (-1074)).
  set (y := (x * pow2 (- e))%Q).
  assert (Hxy : (x == y * pow2 e)%Q).
  { unfold y. rewrite <- Qmult_assoc, pow2_split. ring. }
  assert (Hd : (inject_Z (round_even y) * pow2 e - x ==
                (inject_Z (round_even y) - y) * pow2 e)%Q).
  { rewrite Hxy at 1. ring. }
  rewrite Hd, Qabs_Qmult, (Qabs_pos (pow2 e)) by (apply Qlt_le_weak, pow2_pos).
  apply Qle_trans with ((1 # 2) * pow2 e)%Q.
  { apply Qmult_le_compat_r; [apply round_even_err | apply Qlt_le_weak, pow2_pos]. }
  change (1 # 2)%Q with (pow2 (-1)). rewrite <- pow2_add.
  pose proof (pow2_pos (-1075)). pose proof (pow2_pos (-53)).
  assert (0 <= x * pow2 (-53))%Q by (apply Qmult_le_0_compat; lra).
  destruct (Z.max_spec (k - 52) (-1074)) as [[Hm Heq]|[Hm Heq]]; fold e in Heq; rewrite Heq.
  - replace (-1 + -1074) with (-1075) by lia. lra.
  - replace (-1 + (k - 52)) with (k + -53) by lia. rewrite pow2_add.
    assert (pow2 k * pow2 (-53) <= x * pow2 (-53))%Q
      by (apply Qmult_le_compat_r; lra).
    lra.
Qed.

Lemma fl_err x : (Qabs (fl x - x) <= Qabs x * pow2 (-53) + pow2 (-1075))%Q.
Proof.
  pose proof (pow2_pos (-1075)). pose proof (pow2_pos (-53)).
  destruct (Qcompare_spec x 0) as [E|E|E].
  - rewrite (fl_eq x E), E.
    setoid_replace (0 - 0)%Q with 0%Q by ring. change (Qabs 0) with 0%Q. lra.
  - rewrite (fl_lt x E), (Qabs_neg x) by lra.
    setoid_replace (- fl_pos (- x) - x)%Q with (- (fl_pos (- x) - - x))%Q by ring.
    rewrite Qabs_opp. apply fl_pos_err. lra.
  - rewrite (fl_gt x E), (Qabs_pos x) by lra. apply fl_pos_err, E.
Qed.

Lemma fl_err_bound x M : (Qabs x <= M)%Q ->
  (Qabs (fl x - x) <= M * pow2 (-53) + pow2 (-1075))%Q.
Proof.
  intros H. eapply Qle_trans; [apply fl_err|].
  apply Qplus_le_compat; [|apply Qle_refl].
  apply Qmult_le_compat_r; [exact H | apply Qlt_le_weak, pow2_pos].
Qed.

Lemma fl_nonneg x : (0 <= x)%Q -> (0 <= fl x)%Q.
Proof.
  intros Hx. destruct (Qcompare_spec x 0) as [E|E|E].
  - rewrite (fl_eq x E). apply Qle_refl.
  - lra.
  - rewrite (fl_gt x E). unfold fl_pos. apply Qmult_le_0_compat.
    + change 0%Q with (inject_Z 0). rewrite <- Zle_Qle. apply round_even_nonneg.
      apply Qmult_le_0_compat; [exact Hx | apply Qlt_le_weak, pow2_pos].
    + apply Qlt_le_weak, pow2_pos.
Qed.

Lemma fl_pos_exact m f : 0 < m < 2 ^ 53 -> -1074 <= f ->
  (fl_pos (inject_Z m * pow2 f) == inject_Z m * pow2 f)%Q.
Proof.
  intros Hm Hf.
  assert (Hx : (0 < inject_Z m * pow2 f)%Q).
  { apply Qmult_lt_0_compat; [|apply pow2_pos].
    change 0%Q with (inject_Z 0). rewrite <- Zlt_Qlt. lia. }
  pose proof (ilog2_lower' _ Hx) as Hlo.
  unfold fl_pos. set (k := ilog2 (inject_Z m * pow2 f)) in *.
  assert (Hk : k < 53 + f).
  { apply pow2_lt_inv. eapply Qle_lt_trans; [exact Hlo|].
    rewrite pow2_add. apply Qmult_lt_compat_r; [apply pow2_pos|].
    rewrite pow2_Z by lia. rewrite <- Zlt_Qlt. lia. }
  set (e := Z.max (k - 52) (-1074)).
  assert (He : e <= f) by lia.
  rewrite (round_even_proper _ (inject_Z (m * 2 ^ (f - e)))).
  - rewrite round_even_Z, inject_Z_mult, <- pow2_Z by lia.
    rewrite <- Qmult_assoc, <- pow2_add. replace (f - e + e) with f by lia. reflexivity.
  - rewrite inject_Z_mult, <- pow2_Z by lia.
    rewrite <- Qmult_assoc, <- pow2_add. replace (f + - e) with (f - e) by lia. reflexivity.
Qed.

Lemma fl_exact m f : Z.abs m < 2 ^ 53 -> -1074 <= f ->
  (fl (inject_Z m * pow2 f) == inject_Z m * pow2 f)%Q.
Proof.
  intros Hm Hf. pose proof (pow2_pos f).
  destruct (Z.lt_trichotomy m 0) as [Hn|[Hz|Hp]].
  - assert (Hlt : (inject_Z m * pow2 f < 0)%Q).
    { apply Qlt_le_trans with (0 * pow2 f)%Q; [|lra].
      apply Qmult_lt_compat_r; [exact H|]. change 0%Q with (inject_Z 0). rewrite <- Zlt_Qlt. exact Hn. }
    rewrite (fl_lt _ Hlt).
    rewrite (fl_pos_proper _ (inject_Z (- m) * pow2 f)) by (rewrite inject_Z_opp; ring).
    rewrite fl_pos_exact by lia. rewrite inject_Z_opp. ring.
  - subst m. rewrite fl_eq; [reflexivity|]. simpl. ring.
  - rewrite fl_gt. + apply fl_pos_exact; lia.
    + apply Qmult_lt_0_compat; [|exact H]. change 0%Q with (inject_Z 0). rewrite <- Zlt_Qlt. exact Hp.
Qed.



Lemma pow2_m53 : (pow2 (-53) == 1 # 9007199254740992)%Q.
Proof. reflexivity. Qed.
Lemma pow2_m1075_le : (0 <= pow2 (-1075) <= pow2 (-53))%Q.
Proof. split; [apply Qlt_le_weak, pow2_pos | apply pow2_le; lia]. Qed.
Lemma pow2_big : (pow2 60 + pow2 60 * pow2 (-53) + pow2 (-1075) < pow2 1024)%Q.
Proof. apply Qlt_alt. vm_compute. reflexivity. Qed.

Lemma Qabs_inject_Z z : Qabs (inject_Z z) = inject_Z (Z.abs z).
Proof. reflexivity. Qed.

Lemma dbl_proper x x' : (x == x')%Q -> dbl x = dbl x'.
Proof. intros H. unfold dbl. rewrite (fl_proper x x' H), H. reflexivity. Qed.

Lemma dbl_fin x : (Qabs x <= pow2 60)%Q -> dbl x = Fin (fl x).
Proof.
  intros H. unfold dbl.
  pose proof (fl_err_bound x _ H) as He.
  pose proof pow2_big.
  pose proof (Qabs_triangle (fl x - x) x) as T.
  setoid_replace (fl x - x + x)%Q with (fl x) in T by ring.
  destruct (Qle_bool (pow2 1024) (Qabs (fl x))) eqn:E; [|reflexivity].
  apply Qle_bool_iff in E. lra.
Qed.

Lemma dbl_exact m f : Z.abs m < 2 ^ 53 -> -1074 <= f <= 0 ->
  exists a, dbl (inject_Z m * pow2 f) = Fin a /\ (a == inject_Z m * pow2 f)%Q.
Proof.
  intros Hm Hf. exists (fl (inject_Z m * pow2 f)). split.
  - apply dbl_fin. rewrite Qabs_Qmult, Qabs_inject_Z, (Qabs_pos (pow2 f))
      by (apply Qlt_le_weak, pow2_pos).
    apply Qle_trans with (inject_Z (2 ^ 60) * pow2 0)%Q.
    + apply Qmult_le_compat_nonneg.
      * split; [change 0%Q with (inject_Z 0); rewrite <- Zle_Qle; lia|].
        rewrite <- Zle_Qle. pose proof (Z.pow_le_mono_r 2 53 60). lia.
      * split; [apply Qlt_le_weak, pow2_pos | apply pow2_le; lia].
    + rewrite pow2_Z by lia. apply Qle_lteq. right. reflexivity.
  - apply fl_exact; lia.
Qed.

Lemma Qeq_bool_false x y : ~ (x == y)%Q -> Qeq_bool x y = false.
Proof.
  intros H. destruct (Qeq_bool x y) eqn:E; [|reflexivity].
  apply Qeq_bool_iff in E. contradiction.
Qed.

Lemma Qle_bool_false x y : (y < x)%Q -> Qle_bool x y = false.
Proof.
  intros H. destruct (Qle_bool x y) eqn:E; [|reflexivity].
  apply Qle_bool_iff in E. exfalso. apply (Qlt_not_le _ _ H E).
Qed.

Lemma num_div_fin x y : ~ (y == 0)%Q -> num_div (Fin x) (Fin y) = dbl (x / y).
Proof. intros H. simpl. rewrite (Qeq_bool_false _ _ H). reflexivity. Qed.

Lemma toMB_exact B : 0 <= B < 2 ^ 53 ->
  exists a, toMB B = Fin a /\ (a == inject_Z B * pow2 (-20))%Q.
Proof.
  intros HB. unfold toMB.
  rewrite (fl_proper _ (inject_Z B * pow2 0)) by (unfold pow2; simpl; ring).
  assert (H0 : (fl (inject_Z B * pow2 0) == inject_Z B * pow2 0)%Q)
    by (apply fl_exact; lia).
  rewrite num_div_fin by discriminate.
  destruct (dbl_exact B (-10)) as [a1 [E1 H1]]; [lia | lia |].
  rewrite (dbl_proper _ (inject_Z B * pow2 (-10))).
  2: { rewrite H0. unfold pow2. simpl. field. }
  rewrite E1, num_div_fin by discriminate.
  destruct (dbl_exact B (-20)) as [a2 [E2 H2]]; [lia | lia |].
  exists a2. split; [|exact H2].
  rewrite <- E2. apply dbl_proper. rewrite H1. unfold pow2. simpl. field.
Qed.

Lemma Qfloor_unique z x : (inject_Z z <= x)%Q -> (x < inject_Z z + 1)%Q -> Qfloor x = z.
Proof.
  intros H1 H2.
  pose proof (Qfloor_resp_le _ _ H1) as H3. rewrite Qfloor_Z in H3.
  pose proof (Qfloor_le x) as H4.
  assert (H5 : (inject_Z (Qfloor x) < inject_Z (z + 1))%Q)
    by (rewrite inject_Z_plus; eapply Qle_lt_trans; eauto).
  rewrite <- Zlt_Qlt in H5. lia.
Qed.

Lemma inject_Z_le a b : a <= b -> (inject_Z a <= inject_Z b)%Q.
Proof. intros H. rewrite <- Zle_Qle. exact H. Qed.

Lemma used_ratio_bounds B F : 0 < B -> 0 <= F <= B ->
  (0 <= inject_Z (B - F) / inject_Z B <= 1)%Q.
Proof.
  intros HB HF.
  assert (H0 : (0 < inject_Z B)%Q) by (change 0%Q with (inject_Z 0); rewrite <- Zlt_Qlt; lia).
  split.
  - apply Qle_shift_div_l; [exact H0|]. rewrite Qmult_0_l.
    change 0%Q with (inject_Z 0). apply inject_Z_le. lia.
  - apply Qle_shift_div_r; [exact H0|]. rewrite Qmult_1_l. apply inject_Z_le. lia.
Qed.

Ltac qdiv10 := unfold Qdiv in *; change (/ 10)%Q with (1 # 10)%Q in *.

(** The value read back from [toFixed(1)] of [memPercent] equals the
    nearest tenth of the exact percentage away from ties. *)
Lemma memPercent_value B F : 0 < B < 2 ^ 53 -> 0 <= F <= B ->
  nearTie (usedPercent B F) = false ->
  memPercent (toMB B) F = Fin (fl (inject_Z (roundTenths (usedPercent B F)) / 10)).
Proof.
  intros HB HF Ht. unfold memPercent.
  destruct (toMB_exact B) as [a [Ea Ha]]; [lia|].
  destruct (toMB_exact F) as [b [Eb Hb]]; [lia|].
  rewrite Ea, Eb. simpl num_sub.
  set (r := (inject_Z (B - F) / inject_Z B)%Q).
  pose proof (used_ratio_bounds B F ltac:(lia) HF) as Hr. fold r in Hr.
  assert (HBq : ~ (inject_Z B == 0)%Q).
  { intros E. unfold Qeq in E. simpl in E. lia. }
  assert (Hab : (a - b == inject_Z (B - F) * pow2 (-20))%Q)
    by (rewrite Ha, Hb; unfold Z.sub; rewrite inject_Z_plus, inject_Z_opp; ring).
  destruct (dbl_exact (B - F) (-20)) as [u [Eu Hu]]; [lia | lia |].
  rewrite (dbl_proper _ _ Hab), Eu.
  assert (Ha0 : ~ (a == 0)%Q).
  { rewrite Ha. intros E. apply HBq.
    pose proof (pow2_pos (-20)).
    apply (Qmult_integral_l (pow2 (-20))); [intros E'; rewrite E' in H; discriminate|].
    rewrite Qmult_comm. exact E. }
  rewrite num_div_fin by exact Ha0.
  assert (Hua : (u / a == r)%Q).
  { rewrite Hu, Ha. unfold r. field. split; [exact HBq|].
    pose proof (pow2_pos (-20)). intros E; rewrite E in H; discriminate. }
  pose proof (pow2_m53) as E53. pose proof pow2_m1075_le as E1075.
  assert (Hq : dbl (u / a) = Fin (fl r)).
  { rewrite (dbl_proper _ _ Hua). apply dbl_fin.
    rewrite Qabs_pos by lra. apply Qle_trans with 1%Q; [lra|].
    apply Qle_bool_iff. reflexivity. }
  rewrite Hq. simpl num_mul.
  pose proof (fl_err_bound r 1 ltac:(rewrite Qabs_pos by lra; lra)) as Eq1.
  apply Qabs_Qle_condition in Eq1.
  set (q := fl r) in *.
  assert (Hq0 : (0 <= q)%Q) by (apply fl_nonneg; lra).
  assert (Hp : dbl (q * 100) = Fin (fl (q * 100))).
  { apply dbl_fin. rewrite Qabs_pos by lra.
    apply Qle_trans with 200%Q; [lra|]. apply Qle_bool_iff. reflexivity. }
  rewrite Hp.
  pose proof (fl_err_bound (q * 100) 200 ltac:(rewrite Qabs_pos by lra; lra)) as Eq2.
  apply Qabs_Qle_condition in Eq2.
  set (p := fl (q * 100)) in *.
  assert (Hp0 : (0 <= p)%Q) by (apply fl_nonneg; lra).
  unfold toFixed1.
  replace (Qle_bool (inject_Z (10 ^ 21)) (Qabs p)) with false.
  2: { symmetry. apply Qle_bool_false. rewrite Qabs_pos by lra.
       apply Qle_lt_trans with 201%Q; [lra|]. reflexivity. }
  replace (Qle_bool 0 p) with true by (symmetry; apply Qle_bool_iff; exact Hp0).
  do 2 f_equal.
  unfold roundTenths. f_equal. f_equal.
  unfold nearTie in Ht. unfold usedPercent in Ht |- *. fold r in Ht |- *.
  apply orb_false_iff in Ht as [Ht1 Ht2].
  apply Qltb_false in Ht1. apply Qltb_false in Ht2.
  set (N := Qfloor (10 * (100 * r) + (1 # 2))) in *.
  unfold tieDelta in *.
  apply Qfloor_unique; rewrite Qabs_pos by lra; lra.
Qed.

Lemma tenth_err a : 0 <= a <= 1000 ->
  (- (100 * pow2 (-53) + pow2 (-1075)) <= fl (inject_Z a / 10) - inject_Z a / 10
     <= 100 * pow2 (-53) + pow2 (-1075))%Q.
Proof.
  intros Ha. apply Qabs_Qle_condition, fl_err_bound.
  pose proof (inject_Z_le 0 a ltac:(lia)). pose proof (inject_Z_le a 1000 ltac:(lia)).
  qdiv10. rewrite Qabs_pos; change (inject_Z 0) with 0%Q in *; [|lra].
  change (inject_Z 1000) with 1000%Q in *. lra.
Qed.

Lemma tenths_sep a b : 0 <= a <= 1000 -> 0 <= b <= 1000 -> a < b ->
  (fl (inject_Z a / 10) < fl (inject_Z b / 10))%Q.
Proof.
  intros Ha Hb Hab. pose proof (tenth_err a Ha). pose proof (tenth_err b Hb).
  pose proof (inject_Z_le (a + 1) b ltac:(lia)) as Hs.
  rewrite inject_Z_plus in Hs. change (inject_Z 1) with 1%Q in Hs.
  pose proof pow2_m53. pose proof pow2_m1075_le. qdiv10. lra.
Qed.

Lemma roundTenths_range B F : 0 < B -> 0 <= F <= B ->
  0 <= roundTenths (usedPercent B F) <= 1000.
Proof.
  intros HB HF. pose proof (used_ratio_bounds B F HB HF) as Hr.
  unfold roundTenths, usedPercent.
  set (r := (inject_Z (B - F) / inject_Z B)%Q) in *. split.
  - change 0 with (Qfloor (inject_Z 0)). apply Qfloor_resp_le.
    change (inject_Z 0) with 0%Q. lra.
  - change 1000 with (Qfloor (1000 + (1 # 2))). apply Qfloor_resp_le. lra.
Qed.

Lemma Qltb_irrefl x : Qltb x x = false.
Proof. apply Qltb_false, Qle_refl. Qed.

End DoubleFacts.

(** * Properties of the memory gate *)
Module MemFacts.
Import Mem DoubleFacts.

(** C6 (amended): the gate measures memory against [freeMemoryAvailable],
    the free memory sampled when the module loads, not against the total
    memory. For readings of [B] bytes at load and [F <= B] bytes now
    (below [2^53]) whose used share is not within [1e-13] percentage
    points of a rounding tie, [memPercent] is that share rounded to the
    nearest tenth: [N / 10] with [N = roundTenths]. Against a threshold
    written with one decimal, [t / 10], the call throws 503 exactly when
    [N > t], and otherwise returns the boolean [N < t] ([false] on
    equality), never the percentage; against any threshold [1e-12] or
    more away from [N / 10], it throws exactly when the threshold is below
    [N / 10], and returns [true] otherwise. It never throws another
    status. *)
Theorem getMemPercent_gate (B F : Z) (HB : 0 < B < 2 ^ 53) (HF : 0 <= F <= B)
  (Ht : nearTie (usedPercent B F) = false) :
  let N := roundTenths (usedPercent B F) in
  memPercent (toMB B) F = Fin (fl (inject_Z N / 10)) /\
  (forall t, 0 <= t <= 1000 ->
     getMemPercent (toMB B) F (fl (inject_Z t / 10)) =
     if t <? N then Throw 503 else Return (JBool (N <? t))) /\
  (forall thr, (tieDelta <= Qabs (thr - inject_Z N / 10))%Q ->
     getMemPercent (toMB B) F thr =
     if Qltb thr (inject_Z N / 10) then Throw 503 else Return (JBool true)) /\
  (forall thr st, getMemPercent (toMB B) F thr = Throw st -> st = 503).
Proof.
  intros N. pose proof (memPercent_value B F HB HF Ht) as Hv. fold N in Hv.
  pose proof (roundTenths_range B F ltac:(lia) HF) as HN. fold N in HN.
  split; [exact Hv|]. split; [|split].
  - intros t Hth. unfold getMemPercent. rewrite Hv. simpl num_gt; simpl num_lt.
    destruct (Z.lt_trichotomy t N) as [Hl|[He|Hg]].
    + rewrite (proj2 (Qltb_iff _ _) (tenths_sep t N Hth HN Hl)).
      rewrite (proj2 (Z.ltb_lt t N) Hl). reflexivity.
    + subst t. rewrite Qltb_irrefl, Z.ltb_irrefl. reflexivity.
    + pose proof (tenths_sep N t HN Hth Hg) as Hs.
      rewrite (proj2 (Qltb_false _ _) (Qlt_le_weak _ _ Hs)).
      rewrite (proj2 (Qltb_iff _ _) Hs).
      rewrite (proj2 (Z.ltb_ge t N) ltac:(lia)), (proj2 (Z.ltb_lt N t) Hg).
      reflexivity.
  - intros thr Hd. unfold getMemPercent. rewrite Hv. simpl num_gt; simpl num_lt.
    pose proof (tenth_err N HN) as He. pose proof pow2_m53. pose proof pow2_m1075_le.
    unfold tieDelta in Hd.
    destruct (Qlt_le_dec thr (inject_Z N / 10)) as [Hl|Hl].
    + rewrite (Qabs_neg (thr - inject_Z N / 10)) in Hd by lra.
      rewrite (proj2 (Qltb_iff _ _) Hl).
      replace (Qltb thr (fl (inject_Z N / 10))) with true; [reflexivity|].
      symmetry. apply Qltb_iff. qdiv10. lra.
    + rewrite (Qabs_pos (thr - inject_Z N / 10)) in Hd by lra.
      rewrite (proj2 (Qltb_false _ _) Hl).
      replace (Qltb thr (fl (inject_Z N / 10))) with false.
      2: { symmetry. apply Qltb_false. qdiv10. lra. }
      replace (Qltb (fl (inject_Z N / 10)) thr) with true; [reflexivity|].
      symmetry. apply Qltb_iff. qdiv10. lra.
  - intros thr st. unfold getMemPercent.
    destruct (num_gt _ _); [intros H; inversion H; reflexivity | discriminate].
Qed.

Lemma getMemPercent_gate_witness :
  (0 < 8589934592 < 2 ^ 53 /\ 0 <= 2147483648 <= 8589934592 /\
   nearTie (usedPercent 8589934592 2147483648) = false) /\
  (let N := roundTenths (usedPercent 8589934592 2147483648) in
  memPercent (toMB 8589934592) 2147483648 = Fin (fl (inject_Z N / 10)) /\
  (forall t, 0 <= t <= 1000 ->
     getMemPercent (toMB 8589934592) 2147483648 (fl (inject_Z t / 10)) =
     if t <? N then Throw 503 else Return (JBool (N <? t))) /\
  (forall thr, (tieDelta <= Qabs (thr - inject_Z N / 10))%Q ->
     getMemPercent (toMB 8589934592) 2147483648 thr =
     if Qltb thr (inject_Z N / 10) then Throw 503 else Return (JBool true)) /\
  (forall thr st, getMemPercent (toMB 8589934592) 2147483648 thr = Throw st -> st = 503)).
Proof.
  split; [split; [lia | split; [lia | vm_compute; reflexivity]] |].
  apply getMemPercent_gate; [lia | lia | vm_compute; reflexivity].
Defined.

(** C6 (as stated) fails: with 16000 bytes of total memory, 8000 free at
    load and 6000 free now, the stated formula gives 62.5% used, above a
    threshold of 50, while the code measures 25.0% against the load-time
    baseline and returns the boolean [true], not a percentage. *)
Lemma getMemPercent_spec_formula_counterexample :
  ~ (forall totalmem base free thr,
        0 < totalmem -> 0 < base ->
        getMemPercent (toMB base) free thr =
        if Qltb thr (spec_memUsedPercent totalmem free) then Throw 503
        else Return (JNumTenths
                       (roundTenths (spec_memUsedPercent totalmem free)))).
Proof.
  intros H. specialize (H 16000 8000 6000 50%Q ltac:(lia) ltac:(lia)).
  vm_compute in H. discriminate H.
Qed.

(** Near a tie the double arithmetic decides: with 10000 MiB free at load
    and 995 MiB free now, the used share is exactly 90.05%, but the
    quotient [0.9005] is stored as slightly less, [memPercent] is [90.0],
    and a threshold of 90 neither throws nor reports room. *)
Lemma getMemPercent_tie_example :
  (usedPercent (10000 * 1048576) (995 * 1048576) == 9005 # 100)%Q /\
  nearTie (usedPercent (10000 * 1048576) (995 * 1048576)) = true /\
  getMemPercent (toMB (10000 * 1048576)) (995 * 1048576) 90
  = Return (JBool false).
Proof. split; [|split]; vm_compute; reflexivity. Qed.

End MemFacts.

(** * Properties of the [src/index.js] pool *)
Module IndexFacts.
Import Mem IndexPool.

Lemma popLoop_undefined (fuel : nat) (p : list worker) (t : list nat) :
  popLoop JUndefined fuel p t = (p, t).
Proof. destruct fuel; reflexivity. Qed.

Lemma terminateExcessWorkers_id (s : istate) : terminateExcessWorkers s = s.
Proof.
  destruct s as [p i pe sp te er]. unfold terminateExcessWorkers, minWorkers.
  simpl. rewrite popLoop_undefined, app_nil_r. reflexivity.
Qed.

(** C10: [this.minWorkers] is never assigned, so [pool.length > undefined]
    is false and the [terminateExcessWorkers] of [run]'s [finally] pops
    and terminates nothing: the pool and the terminated workers are as
    before. *)
Theorem terminateExcessWorkers_frame (s : istate) :
  pool (terminateExcessWorkers s) = pool s /\
  terminated (terminateExcessWorkers s) = terminated s /\
  inflight (terminateExcessWorkers s) = inflight s.
Proof. rewrite terminateExcessWorkers_id. auto. Qed.

(** C1 (code): a [run] whose memory check fails answers 503, but the
    worker [runTask] shifted out before calling [getMemPercent] is not put
    back: the pool loses its head. *)
Theorem run_capacity_rejection_drops_worker
  (c : config) (env : nat -> spawn) (canExec : bool) (free : Z) (ex : exec)
  (s : istate) (w : worker) (rest : list worker)
  (Hpool : pool s = w :: rest)
  (Hmem : num_gt (memPercent (freeMemoryAvailable c) free) (memThreshold c)
          = true) :
  run c env canExec free ex s = Some (set_pool s rest, RespErr 503).
Proof.
  unfold run. rewrite Hpool. simpl. rewrite Hpool.
  unfold getMemPercent. rewrite Hmem.
  rewrite terminateExcessWorkers_id. reflexivity.
Qed.

Lemma run_capacity_rejection_drops_worker_witness :
  (pool (mkIState [mkWorker 1 0 true; mkWorker 2 1 true] [] [] 2 [] 0)
   = mkWorker 1 0 true :: [mkWorker 2 1 true] /\
   num_gt (memPercent (freeMemoryAvailable (mkConfig 2 90 true 1000)) 50)
     (memThreshold (mkConfig 2 90 true 1000)) = true) /\
  run (mkConfig 2 90 true 1000) (fun _ => SpawnOk) true 50 ExecMessage
      (mkIState [mkWorker 1 0 true; mkWorker 2 1 true] [] [] 2 [] 0)
  = Some (set_pool (mkIState [mkWorker 1 0 true; mkWorker 2 1 true] [] [] 2 [] 0)
            [mkWorker 2 1 true], RespErr 503).
Proof.
  split; [split; [reflexivity | vm_compute; reflexivity] |].
  apply (run_capacity_rejection_drops_worker _ _ _ _ _ _ (mkWorker 1 0 true));
    [reflexivity | vm_compute; reflexivity].
Defined.

(** C5 (amended): when the dispatched task fails ([errorListener]), [run]
    answers 500, the worker shifted out of the pool is not pushed back, no
    [terminate()] is called, and no replacement worker is created: the
    state is the pool minus that worker, everything else unchanged but the
    error log, to which [buildPool]'s [handleError] adds the error of a
    worker it created. *)
Theorem run_execution_failure_no_replacement
  (c : config) (env : nat -> spawn) (canExec : bool) (free : Z)
  (s : istate) (w : worker) (rest : list worker) (v : jsval)
  (Hpool : pool s = w :: rest)
  (Hmem : getMemPercent (freeMemoryAvailable c) free (memThreshold c)
          = Return v) :
  run c env canExec free ExecError s =
    Some (log_error w (set_pool s rest), RespErr 500) /\
  pool (log_error w (set_pool s rest)) = rest /\
  spawned (log_error w (set_pool s rest)) = spawned s /\
  terminated (log_error w (set_pool s rest)) = terminated s /\
  pending (log_error w (set_pool s rest)) = pending s.
Proof.
  unfold run. rewrite Hpool. simpl. rewrite Hpool, Hmem.
  rewrite terminateExcessWorkers_id. unfold log_error.
  destruct (handleError w); repeat split; reflexivity.
Qed.

Lemma run_execution_failure_no_replacement_witness :
  (pool (mkIState [mkWorker 1 0 true; mkWorker 2 1 true] [] [] 2 [] 0)
   = mkWorker 1 0 true :: [mkWorker 2 1 true] /\
   getMemPercent (toMB 1000) 500 90 = Return (JBool true)) /\
  (run (mkConfig 2 90 true 1000) (fun _ => SpawnOk) true 500 ExecError
      (mkIState [mkWorker 1 0 true; mkWorker 2 1 true] [] [] 2 [] 0)
   = Some (log_error (mkWorker 1 0 true)
             (set_pool (mkIState [mkWorker 1 0 true; mkWorker 2 1 true] [] [] 2 [] 0)
                [mkWorker 2 1 true]), RespErr 500) /\
   pool (log_error (mkWorker 1 0 true)
           (set_pool (mkIState [mkWorker 1 0 true; mkWorker 2 1 true] [] [] 2 [] 0)
              [mkWorker 2 1 true])) = [mkWorker 2 1 true] /\
   spawned (log_error (mkWorker 1 0 true)
              (set_pool (mkIState [mkWorker 1 0 true; mkWorker 2 1 true] [] [] 2 [] 0)
                 [mkWorker 2 1 true])) = 2%nat /\
   terminated (log_error (mkWorker 1 0 true)
                 (set_pool (mkIState [mkWorker 1 0 true; mkWorker 2 1 true] [] [] 2 [] 0)
                    [mkWorker 2 1 true])) = [] /\
   pending (log_error (mkWorker 1 0 true)
              (set_pool (mkIState [mkWorker 1 0 true; mkWorker 2 1 true] [] [] 2 [] 0)
                 [mkWorker 2 1 true])) = []).
Proof.
  split; [split; [reflexivity | vm_compute; reflexivity] |].
  apply (run_execution_failure_no_replacement (mkConfig 2 90 true 1000)
           (fun _ => SpawnOk) true 500
           (mkIState [mkWorker 1 0 true; mkWorker 2 1 true] [] [] 2 [] 0)
           (mkWorker 1 0 true) [mkWorker 2 1 true] (JBool true));
    [reflexivity | vm_compute; reflexivity].
Defined.

(** C5 (as stated) fails: after a task failure on a pool of two, [run]
    has made no [new Worker] call and has no replacement pending, and the
    pool is left one worker short. *)
Lemma run_execution_failure_replacement_counterexample :
  ~ (exists s' r,
        run (mkConfig 2 90 true 1000) (fun _ => SpawnOk) true 500 ExecError
            (mkIState [mkWorker 1 0 true; mkWorker 2 1 true] [] [] 2 [] 0)
        = Some (s', r) /\
        ((2 < spawned s')%nat \/ pending s' <> [] \/
         length (pool s') = 2%nat)).
Proof.
  intros (s' & r & Hrun & Hrep). vm_compute in Hrun.
  injection Hrun as <- _. simpl in Hrep.
  destruct Hrep as [H|[H|H]]; [lia | apply H; reflexivity | discriminate].
Qed.

End IndexFacts.

(** * Pool size bounds and shutdown of the [src/index.js] pool *)
Module IndexBounds.
Import Mem IndexPool.

Lemma buildLoop_length (env : nat -> spawn) (fuel i : nat) (s : istate) :
  (length (pool (fst (buildLoop env i fuel s))) <= length (pool s) + fuel)%nat.
Proof.
  revert i s. induction fuel as [|fuel IH]; intros i s; simpl.
  - lia.
  - destruct (env (spawned s)); simpl.
    + specialize (IH (S i) (mkIState (pool s ++ [mkWorker (S i) (spawned s) true])
                              (inflight s) (pending s) (S (spawned s))
                              (terminated s) (errlog s))).
      simpl in IH. rewrite length_app in IH. simpl in IH. lia.
    + specialize (IH (S i) (mkIState (pool s ++ [mkWorker (S i) (spawned s) true])
                              (inflight s) (pending s) (S (spawned s))
                              (terminated s) (S (errlog s)))).
      simpl in IH. rewrite length_app in IH. simpl in IH. lia.
    + lia.
Qed.

Lemma popLoop_length (b : jsval) (fuel : nat) (p : list worker) (t : list nat) :
  (length (fst (popLoop b fuel p t)) <= length p)%nat.
Proof.
  revert p t. induction fuel as [|fuel IH]; intros p t; simpl; [lia |].
  destruct (js_gt_nat (length p) b); simpl; [| lia].
  destruct (rev p) as [|w r] eqn:Er; simpl; [lia |].
  specialize (IH (rev r) (t ++ [whandle w])).
  assert (length p = S (length (rev r))).
  { rewrite <- length_rev, Er. simpl. rewrite length_rev. reflexivity. }
  lia.
Qed.

Lemma popLoop_zero_empties (fuel : nat) (p : list worker) (t : list nat) :
  (length p <= fuel)%nat -> fst (popLoop (JNumTenths 0) fuel p t) = [].
Proof.
  revert p t. induction fuel as [|fuel IH]; intros p t Hl.
  - destruct p; [reflexivity | simpl in Hl; lia].
  - cbn [popLoop].
    destruct p as [|x p'].
    + reflexivity.
    + assert (Hg : js_gt_nat (length (x :: p')) (JNumTenths 0) = true).
      { unfold js_gt_nat. apply Z.ltb_lt. simpl length. lia. }
      rewrite Hg.
      destruct (rev (x :: p')) as [|w r] eqn:Er.
      * simpl in Er. destruct (rev p'); discriminate.
      * apply IH.
        assert (Hr : length (x :: p') = S (length (rev r))).
        { rewrite <- length_rev, Er. simpl. rewrite length_rev. reflexivity. }
        rewrite length_rev. rewrite length_rev in Hr. lia.
Qed.

Lemma terminateAllWorkers_pool (s : istate) :
  pool (terminateAllWorkers s) = [].
Proof.
  unfold terminateAllWorkers.
  pose proof (popLoop_zero_empties (length (pool s)) (pool s) [] (le_n _)).
  destruct (popLoop (JNumTenths 0) (length (pool s)) (pool s) []).
  simpl in *. assumption.
Qed.

Lemma terminateAllWorkers_empty (s : istate) :
  pool s = [] -> terminateAllWorkers s = s.
Proof.
  destruct s as [p i pe sp te er]. simpl. intros ->.
  unfold terminateAllWorkers. simpl. rewrite app_nil_r. reflexivity.
Qed.

Lemma istep_bound (c : config) (env : nat -> spawn) (s s' : istate) :
  istep c env s s' ->
  (length (pool s) <= poolSize c)%nat -> (length (pool s') <= poolSize c)%nat.
Proof.
  intros Hst Hb. destruct Hst; simpl.
  - unfold buildPool. pose proof (buildLoop_length env (poolSize c) 0 s) as Hl.
    rewrite H in Hl. simpl in Hl. lia.
  - rewrite H in Hb. simpl in Hb. lia.
  - rewrite H in Hb. simpl in Hb. lia.
  - unfold pushBack. destruct (Nat.ltb_spec (length (pool s)) (poolSize c));
      [rewrite length_app; simpl; lia | lia].
  - unfold log_error. destruct (handleError w); exact Hb.
  - unfold addNewWorkerStart.
    destruct (Nat.leb (poolSize c) (length (pool s))); [exact Hb |].
    destruct (env (spawned s)); exact Hb.
  - unfold onOnline. destruct (Nat.ltb_spec (length (pool s)) (poolSize c));
      [rewrite length_app; simpl; lia | lia].
  - rewrite IndexFacts.terminateExcessWorkers_id. exact Hb.
  - rewrite terminateAllWorkers_pool. simpl. lia.
Qed.

Lemma reachable_bound (c : config) (env : nat -> spawn) (s : istate) :
  reachable c env s -> (length (pool s) <= poolSize c)%nat.
Proof.
  induction 1 as [|s s' _ IH Hst]; [simpl; lia |].
  exact (istep_bound c env s s' Hst IH).
Qed.

End IndexBounds.

(** * Properties of the [part_001] pool *)
Module QueueFacts.
Import QueuePool.

Lemma updFirst_spec (P : qworker -> bool) (f : qworker -> qworker)
  (l l' : list qworker) (w : qworker) :
  updFirst P f l = Some (w, l') ->
  exists l1 l2, l = l1 ++ w :: l2 /\ l' = l1 ++ f w :: l2 /\ P w = true /\
                (forall x, In x l1 -> P x = false).
Proof.
  revert l'. induction l as [|x r IH]; intros l' H; simpl in H; [discriminate |].
  destruct (P x) eqn:Px.
  - injection H as <- <-. exists [], r. repeat split; auto. intros y [].
  - destruct (updFirst P f r) as [[w0 r0]|] eqn:Er; [|discriminate].
    injection H as <- <-.
    destruct (IH r0 eq_refl) as (l1 & l2 & -> & -> & Pw & Hl1).
    exists (x :: l1), l2. repeat split; auto.
    intros y [<-|Hy]; auto.
Qed.

Lemma updFirst_none (P : qworker -> bool) (f : qworker -> qworker)
  (l : list qworker) :
  (forall x, In x l -> P x = false) -> updFirst P f l = None.
Proof.
  induction l as [|x r IH]; intros H; simpl; [reflexivity |].
  rewrite (H x (or_introl eq_refl)), IH; auto.
  intros y Hy. apply H. right. exact Hy.
Qed.

Lemma posted_app (l l' : list lev) : posted (l ++ l') = posted l ++ posted l'.
Proof.
  induction l as [|[h p|h] l IH]; simpl; [reflexivity | rewrite IH | exact IH];
    reflexivity.
Qed.

Lemma assignTasks_fifo (s : qstate) :
  posted (qlog (assignTasks s)) ++ map e_promise (taskQueue (assignTasks s)) =
  posted (qlog s) ++ map e_promise (taskQueue s).
Proof.
  unfold assignTasks. destruct (taskQueue s) as [|e q] eqn:Eq; [rewrite Eq; reflexivity |].
  destruct (updFirst _ _ _) as [[w p']|]; [|rewrite Eq; reflexivity].
  simpl. rewrite posted_app. simpl. rewrite <- app_assoc. reflexivity.
Qed.

Lemma handleWorkerResult_fifo (h : nat) (s s' : qstate) :
  handleWorkerResult h s = Some s' ->
  posted (qlog s') ++ map e_promise (taskQueue s') =
  posted (qlog s) ++ map e_promise (taskQueue s).
Proof.
  unfold handleWorkerResult. destruct (updFirst _ _ _) as [[w p']|];
    [|discriminate].
  intros H. injection H as <-. rewrite assignTasks_fifo. simpl.
  rewrite posted_app, app_nil_r. reflexivity.
Qed.

Lemma qstep_fifo (c : qconfig) (s s' : qstate) (ev : qev) :
  qstep c s ev = Some s' ->
  posted (qlog s') ++ map e_promise (taskQueue s') =
  posted (qlog s) ++ map e_promise (taskQueue s) ++ submitted [ev].
Proof.
  destruct ev as [e|h|h| |]; simpl; intros H.
  - injection H as <-. unfold run. rewrite assignTasks_fifo. simpl.
    rewrite map_app. reflexivity.
  - destruct (existsb _ _); [discriminate |].
    rewrite (handleWorkerResult_fifo h s s' H), app_nil_r. reflexivity.
  - injection H as <-. rewrite app_nil_r. reflexivity.
  - destruct (building s); [discriminate |]. injection H as <-.
    rewrite app_nil_r. reflexivity.
  - injection H as <-. rewrite app_nil_r. reflexivity.
Qed.

Lemma submitted_cons (ev : qev) (evs : list qev) :
  submitted (ev :: evs) = submitted [ev] ++ submitted evs.
Proof. destruct ev; reflexivity. Qed.

Lemma qrun_fifo (c : qconfig) (evs : list qev) (s s' : qstate) :
  qrun c s evs = Some s' ->
  posted (qlog s') ++ map e_promise (taskQueue s') =
  posted (qlog s) ++ map e_promise (taskQueue s) ++ submitted evs.
Proof.
  revert s. induction evs as [|ev evs IH]; intros s H; simpl in H.
  - injection H as <-. rewrite app_nil_r. reflexivity.
  - destruct (qstep c s ev) as [s1|] eqn:E; [|discriminate].
    rewrite (IH s1 H), app_assoc, (qstep_fifo c s s1 ev E), (submitted_cons ev evs).
    rewrite !app_assoc. reflexivity.
Qed.

(** C2: from the constructor on, in every run of events ([run] calls,
    worker messages and errors, workers coming online, shutdown), the
    promises posted to workers followed by those still queued are exactly
    the submitted ones, in submission order: [push] appends, [shift]
    takes the head, and dispatch follows submission order. *)
Theorem queue_fifo (c : qconfig) (evs : list qev) (s : qstate)
  (Hrun : qrun c (qinit c) evs = Some s) :
  posted (qlog s) ++ map e_promise (taskQueue s) = submitted evs.
Proof. exact (qrun_fifo c evs (qinit c) s Hrun). Qed.

Definition fifo_scenario : list qev :=
  [QOnline; QOnline; QRun (mkQEntry 0 0 1); QRun (mkQEntry 0 0 2);
   QRun (mkQEntry 0 0 3); QRun (mkQEntry 0 0 4); QRun (mkQEntry 0 0 5);
   QMsg 1; QMsg 2; QMsg 1].

Lemma queue_fifo_witness :
  exists s, qrun (mkQConfig 2 true) (qinit (mkQConfig 2 true)) fifo_scenario
            = Some s /\
  posted (qlog s) ++ map e_promise (taskQueue s) = submitted fifo_scenario.
Proof.
  eexists. split.
  - vm_compute. reflexivity.
  - apply (queue_fifo (mkQConfig 2 true) fifo_scenario). vm_compute.
    reflexivity.
Defined.

End QueueFacts.

(** * No double dispatch in the [part_001] pool *)
Module QueueDispatch.
Import QueuePool QueueFacts.

Lemma busyAfter_post (h h' p : nat) (l : list lev) :
  busyAfter h (l ++ [LPost h' p]) =
  if Nat.eqb h h' then true else busyAfter h l.
Proof. unfold busyAfter. rewrite fold_left_app. reflexivity. Qed.

Lemma busyAfter_idle (h h' : nat) (l : list lev) :
  busyAfter h (l ++ [LIdle h']) =
  if Nat.eqb h h' then false else busyAfter h l.
Proof. unfold busyAfter. rewrite fold_left_app. reflexivity. Qed.

Lemma last_cases {A : Type} (l : list A) : l = [] \/ exists l' y, l = l' ++ [y].
Proof.
  induction l as [|a l IH] using rev_ind; [left; reflexivity |].
  right. exists l, a. reflexivity.
Qed.

Lemma app_last_split {A : Type} (l1 l2 l : list A) (a x : A) :
  l1 ++ a :: l2 = l ++ [x] ->
  (l1 = l /\ a = x /\ l2 = []) \/
  (exists l2', l2 = l2' ++ [x] /\ l = l1 ++ a :: l2').
Proof.
  intros H. destruct (last_cases l2) as [->|(l2' & y & ->)].
  - left. apply app_inj_tail in H. intuition.
  - right. exists l2'.
    replace (l1 ++ a :: l2' ++ [y]) with ((l1 ++ a :: l2') ++ [y]) in H
      by (rewrite <- app_assoc; reflexivity).
    apply app_inj_tail in H. destruct H as [-> ->]. auto.
Qed.

Lemma ndd_idle (l : list lev) (h : nat) :
  no_double_dispatch l -> no_double_dispatch (l ++ [LIdle h]).
Proof.
  intros Hl l1 h' p l2 Heq. symmetry in Heq. apply app_last_split in Heq.
  destruct Heq as [(_ & Hx & _)|(l2' & _ & Hl')]; [discriminate |].
  exact (Hl l1 h' p l2' Hl').
Qed.

Lemma ndd_post (l : list lev) (h p : nat) :
  no_double_dispatch l -> busyAfter h l = false ->
  no_double_dispatch (l ++ [LPost h p]).
Proof.
  intros Hl Hf l1 h' p' l2 Heq. symmetry in Heq. apply app_last_split in Heq.
  destruct Heq as [(-> & Hx & _)|(l2' & _ & Hl')].
  - injection Hx as -> _. exact Hf.
  - exact (Hl l1 h' p' l2' Hl').
Qed.

Lemma NoDup_snoc (l : list nat) (a : nat) :
  NoDup l -> ~ In a l -> NoDup (l ++ [a]).
Proof.
  induction l as [|x r IH]; intros Hn Ha; simpl.
  - constructor; [intros [] | constructor].
  - inversion Hn as [|? ? Hx Hr]; subst. constructor.
    + intros Hin. apply in_app_or in Hin. destruct Hin as [Hin|[<-|[]]].
      * exact (Hx Hin).
      * apply Ha. left. reflexivity.
    + apply IH; [exact Hr |]. intros Hin. apply Ha. right. exact Hin.
Qed.

(** The bookkeeping invariant: each pool entry's [busy] flag is what the
    log says about its worker, worker identities are distinct and fresh
    ones are above every identity used so far. *)
Definition qinv (s : qstate) : Prop :=
  (forall w, In w (qpool s) -> busyAfter (qh w) (qlog s) = qbusy w) /\
  NoDup (map qh (qpool s)) /\
  (forall w, In w (qpool s) -> qh w < nexth s)%nat /\
  (forall h, busyAfter h (qlog s) = true -> h < nexth s)%nat /\
  no_double_dispatch (qlog s).

Lemma others_distinct (l1 l2 : list qworker) (w x : qworker) :
  NoDup (map qh (l1 ++ w :: l2)) -> In x l1 \/ In x l2 -> qh x <> qh w.
Proof.
  intros Hn Hx Heq. rewrite map_app in Hn. simpl in Hn.
  apply NoDup_remove_2 in Hn. apply Hn. rewrite <- Heq.
  apply in_or_app. destruct Hx; [left | right]; apply in_map; assumption.
Qed.

Lemma map_qh_update (l1 l2 : list qworker) (w w' : qworker) :
  qh w' = qh w -> map qh (l1 ++ w' :: l2) = map qh (l1 ++ w :: l2).
Proof. intros H. rewrite !map_app. simpl. rewrite H. reflexivity. Qed.

Ltac in_mid := apply in_or_app; right; left; reflexivity.
Ltac in_side H := apply in_or_app; destruct H; [left | right; right]; assumption.

Lemma assignTasks_inv (s : qstate) : qinv s -> qinv (assignTasks s).
Proof.
  intros Hi. unfold assignTasks.
  destruct (taskQueue s) as [|e q]; [exact Hi |].
  destruct (updFirst _ _ _) as [[w p']|] eqn:U; [|exact Hi].
  apply updFirst_spec in U. destruct U as (l1 & l2 & Hl & -> & Pw & _).
  apply negb_true_iff in Pw.
  destruct Hi as (Ha & Hb & Hc & Hd & He). rewrite Hl in Ha, Hb, Hc.
  unfold qinv. simpl. repeat split.
  - intros x Hx. rewrite busyAfter_post.
    apply in_app_or in Hx. destruct Hx as [Hx|[<-|Hx]].
    + rewrite (proj2 (Nat.eqb_neq _ _) (others_distinct l1 l2 w x Hb (or_introl Hx))).
      apply Ha. apply in_or_app. left. exact Hx.
    + simpl. rewrite Nat.eqb_refl. reflexivity.
    + rewrite (proj2 (Nat.eqb_neq _ _) (others_distinct l1 l2 w x Hb (or_intror Hx))).
      apply Ha. apply in_or_app. right. right. exact Hx.
  - rewrite (map_qh_update l1 l2 w (markBusy e w) eq_refl). exact Hb.
  - intros x Hx. apply in_app_or in Hx. destruct Hx as [Hx|[<-|Hx]].
    + apply Hc. apply in_or_app. left. exact Hx.
    + simpl. apply (Hc w). in_mid.
    + apply Hc. apply in_or_app. right. right. exact Hx.
  - intros h H. rewrite busyAfter_post in H.
    destruct (Nat.eqb h (qh w)) eqn:E.
    + apply Nat.eqb_eq in E. rewrite E. apply Hc. in_mid.
    + auto.
  - apply ndd_post; [exact He |]. rewrite Ha; [exact Pw | in_mid].
Qed.

Lemma handleWorkerResult_inv (h : nat) (s s' : qstate) :
  qinv s -> handleWorkerResult h s = Some s' -> qinv s'.
Proof.
  intros Hi. unfold handleWorkerResult.
  destruct (updFirst _ _ _) as [[w p']|] eqn:U; [|discriminate].
  intros H. injection H as <-. apply assignTasks_inv.
  apply updFirst_spec in U. destruct U as (l1 & l2 & Hl & -> & Pw & _).
  apply Nat.eqb_eq in Pw. subst h.
  destruct Hi as (Ha & Hb & Hc & Hd & He). rewrite Hl in Ha, Hb, Hc.
  unfold qinv. simpl. repeat split.
  - intros x Hx. rewrite busyAfter_idle.
    apply in_app_or in Hx. destruct Hx as [Hx|[<-|Hx]].
    + rewrite (proj2 (Nat.eqb_neq _ _) (others_distinct l1 l2 w x Hb (or_introl Hx))).
      apply Ha. apply in_or_app. left. exact Hx.
    + simpl. rewrite Nat.eqb_refl. reflexivity.
    + rewrite (proj2 (Nat.eqb_neq _ _) (others_distinct l1 l2 w x Hb (or_intror Hx))).
      apply Ha. apply in_or_app. right. right. exact Hx.
  - rewrite (map_qh_update l1 l2 w (markIdle w) eq_refl). exact Hb.
  - intros x Hx. apply in_app_or in Hx. destruct Hx as [Hx|[<-|Hx]].
    + apply Hc. apply in_or_app. left. exact Hx.
    + simpl. apply (Hc w). in_mid.
    + apply Hc. apply in_or_app. right. right. exact Hx.
  - intros h H. rewrite busyAfter_idle in H.
    destruct (Nat.eqb h (qh w)); [discriminate | auto].
  - apply ndd_idle. exact He.
Qed.

Lemma qstep_inv (c : qconfig) (s s' : qstate) (ev : qev) :
  qinv s -> qstep c s ev = Some s' -> qinv s'.
Proof.
  intros Hi. destruct ev as [e|h|h| |]; simpl; intros H.
  - injection H as <-. unfold run. apply assignTasks_inv. exact Hi.
  - destruct (existsb _ _); [discriminate |].
    exact (handleWorkerResult_inv h s s' Hi H).
  - injection H as <-. exact Hi.
  - destruct (building s) as [|b]; [discriminate |]. injection H as <-.
    destruct Hi as (Ha & Hb & Hc & Hd & He). unfold qinv. simpl.
    repeat split.
    + intros x Hx. apply in_app_or in Hx. destruct Hx as [Hx|[<-|[]]].
      * apply Ha. exact Hx.
      * simpl. destruct (busyAfter (nexth s) (qlog s)) eqn:B; [|reflexivity].
        apply Hd in B. lia.
    + rewrite map_app. simpl. apply NoDup_snoc; [exact Hb |].
      intros Hin. apply in_map_iff in Hin. destruct Hin as (x & Hx & Hin).
      apply Hc in Hin. lia.
    + intros x Hx. apply in_app_or in Hx. destruct Hx as [Hx|[<-|[]]].
      * apply Hc in Hx. lia.
      * simpl. lia.
    + intros h' B. apply Hd in B. lia.
    + exact He.
  - injection H as <-. destruct Hi as (Ha & Hb & Hc & Hd & He).
    unfold qinv, terminateAllWorkers. simpl.
    repeat split; auto; try (intros ? []). constructor.
Qed.

Lemma qrun_inv (c : qconfig) (evs : list qev) (s s' : qstate) :
  qinv s -> qrun c s evs = Some s' -> qinv s'.
Proof.
  revert s. induction evs as [|ev evs IH]; intros s Hi H; simpl in H.
  - injection H as <-. exact Hi.
  - destruct (qstep c s ev) as [s1|] eqn:E; [|discriminate].
    exact (IH s1 (qstep_inv c s s1 ev Hi E) H).
Qed.

Lemma qinit_inv (c : qconfig) : qinv (qinit c).
Proof.
  unfold qinv, qinit. simpl. repeat split.
  - intros ? [].
  - constructor.
  - intros ? [].
  - intros h H. discriminate H.
  - intros l1 h p l2 H. destruct l1; discriminate H.
Qed.

(** C7: in every run of events from the constructor on, no worker is
    posted a task while its previous post is unreleased (no [LPost h]
    without an [LIdle h] since the last [LPost h]), and each pool entry's
    [busy] flag is true exactly when its worker has such an unreleased
    post. *)
Theorem no_second_dispatch_while_busy (c : qconfig) (evs : list qev)
  (s : qstate) (Hrun : qrun c (qinit c) evs = Some s) :
  no_double_dispatch (qlog s) /\
  (forall w, In w (qpool s) -> qbusy w = busyAfter (qh w) (qlog s)).
Proof.
  destruct (qrun_inv c evs (qinit c) s (qinit_inv c) Hrun)
    as (Ha & _ & _ & _ & He).
  split; [exact He |]. intros w Hw. symmetry. apply Ha. exact Hw.
Qed.

Lemma no_second_dispatch_while_busy_witness :
  exists s, qrun (mkQConfig 2 true) (qinit (mkQConfig 2 true)) fifo_scenario
            = Some s /\
  (no_double_dispatch (qlog s) /\
   (forall w, In w (qpool s) -> qbusy w = busyAfter (qh w) (qlog s))).
Proof.
  eexists. split.
  - vm_compute. reflexivity.
  - apply (no_second_dispatch_while_busy (mkQConfig 2 true) fifo_scenario).
    vm_compute. reflexivity.
Defined.

End QueueDispatch.

(** * Settlement and pool construction in the [part_001] pool *)
Module QueueSettle.
Import QueuePool QueueFacts.

Lemma qrun_app (c : qconfig) (s : qstate) (l1 l2 : list qev) :
  qrun c s (l1 ++ l2) =
  match qrun c s l1 with Some s1 => qrun c s1 l2 | None => None end.
Proof.
  revert s. induction l1 as [|ev l1 IH]; intros s; simpl; [reflexivity |].
  destruct (qstep c s ev); [apply IH | reflexivity].
Qed.

Lemma assignTasks_all_busy (s : qstate) :
  (forall w, In w (qpool s) -> qbusy w = true) -> assignTasks s = s.
Proof.
  intros H. unfold assignTasks. destruct (taskQueue s); [reflexivity |].
  rewrite updFirst_none; [reflexivity |].
  intros x Hx. rewrite (H x Hx). reflexivity.
Qed.

(** The state after the only worker died with its task posted. *)
Definition stuck (s : qstate) : Prop :=
  building s = O /\
  (forall w, In w (qpool s) -> qh w = 1%nat /\ qbusy w = true) /\
  In 1%nat (qdead s) /\ settled s = [].

Lemma stuck_step (c : qconfig) (s s' : qstate) (ev : qev) :
  stuck s -> qstep c s ev = Some s' -> stuck s'.
Proof.
  intros (Hb & Hw & Hd & Hs). destruct ev as [e|h|h| |]; simpl; intros H.
  - injection H as <-. unfold run. rewrite assignTasks_all_busy.
    + unfold stuck. simpl. auto.
    + intros w Hin. apply Hw. exact Hin.
  - destruct (existsb (Nat.eqb h) (qdead s)) eqn:Ex; [discriminate |].
    unfold handleWorkerResult in H. rewrite updFirst_none in H;
      [discriminate |].
    intros x Hx. destruct (Hw x Hx) as [Hq _]. rewrite Hq.
    apply Nat.eqb_neq. intros <-.
    assert (existsb (Nat.eqb 1) (qdead s) = true) as Ht.
    { apply existsb_exists. exists 1%nat. split; [exact Hd | reflexivity]. }
    rewrite Ht in Ex. discriminate.
  - injection H as <-. unfold stuck. simpl. repeat split; auto;
    try (right; exact Hd); try (apply Hw; assumption).
  - rewrite Hb in H. discriminate.
  - injection H as <-. unfold stuck, terminateAllWorkers. simpl.
    repeat split; auto; try (intros ? []); contradiction.
Qed.

Lemma stuck_run (c : qconfig) (evs : list qev) (s s' : qstate) :
  stuck s -> qrun c s evs = Some s' -> stuck s'.
Proof.
  revert s. induction evs as [|ev evs IH]; intros s Hs H; simpl in H.
  - injection H as <-. exact Hs.
  - destruct (qstep c s ev) as [s1|] eqn:E; [|discriminate].
    exact (IH s1 (stuck_step c s s1 ev Hs E) H).
Qed.

(** One worker: it comes online, takes promise 0, dies with an uncaught
    error, and promise 1 is submitted after. *)
Definition error_prefix : list qev :=
  [QOnline; QRun (mkQEntry 0 0 0); QErr 1; QRun (mkQEntry 0 1 1)].

(** C3 (code): with a pool of one worker whose task fails, whatever
    happens next (more [run] calls, messages from live workers, shutdown),
    no submitted promise is ever settled: neither the failed task's nor
    the queued one's. *)
Theorem failed_task_never_settles (evs : list qev) (s : qstate)
  (Hrun : qrun (mkQConfig 1 true) (qinit (mkQConfig 1 true))
            (error_prefix ++ evs) = Some s) :
  settled s = [].
Proof.
  rewrite qrun_app in Hrun.
  destruct (qrun _ _ error_prefix) as [s1|] eqn:E; [|discriminate].
  assert (Hs1 : stuck s1).
  { vm_compute in E. injection E as <-. unfold stuck. simpl.
    split; [reflexivity |]. split; [intros w0 [<-|[]]; split; reflexivity |].
    split; [left; reflexivity | reflexivity]. }
  exact (proj2 (proj2 (proj2 (stuck_run _ evs s1 s Hs1 Hrun)))).
Qed.

Lemma failed_task_never_settles_witness :
  exists s, qrun (mkQConfig 1 true) (qinit (mkQConfig 1 true))
              (error_prefix ++ [QRun (mkQEntry 0 2 2); QTermAll]) = Some s /\
            settled s = [].
Proof.
  eexists. split.
  - vm_compute. reflexivity.
  - apply (failed_task_never_settles [QRun (mkQEntry 0 2 2); QTermAll]).
    vm_compute. reflexivity.
Defined.

Lemma buildLoop_stops (env : nat -> qspawn) (m : nat) :
  forall i fuel p, (m < fuel)%nat ->
  (forall j, (i <= j < i + m)%nat -> env j = QOk) -> env (i + m)%nat <> QOk ->
  length (fst (fst (buildLoop env i fuel p))) = (length p + m)%nat /\
  snd (fst (buildLoop env i fuel p)) = true.
Proof.
  induction m as [|m IH]; intros i fuel p Hf Hok Hk;
    (destruct fuel as [|fuel]; [lia |]); simpl.
  - rewrite Nat.add_0_r in Hk.
    destruct (env i); [contradiction | simpl; split; [lia | reflexivity]
                      | simpl; split; [lia | reflexivity]].
  - rewrite (Hok i ltac:(lia)).
    destruct (IH (S i) fuel (p ++ [mkQWorker (S (length p)) i false None None]))
      as [Hl Hlog].
    + lia.
    + intros j Hj. apply Hok. lia.
    + replace (S i + m)%nat with (i + S m)%nat by lia. exact Hk.
    + rewrite Hl, length_app. simpl. split; [lia | exact Hlog].
Qed.

End QueueSettle.

(** * Size bound, shutdown and construction across both pools *)
Module PoolFacts.

Lemma updFirst_length (P : QueuePool.qworker -> bool)
  (f : QueuePool.qworker -> QueuePool.qworker) (l l' : list QueuePool.qworker)
  (w : QueuePool.qworker) :
  QueuePool.updFirst P f l = Some (w, l') -> length l' = length l.
Proof.
  intros H. destruct (QueueFacts.updFirst_spec P f l l' w H)
    as (l1 & l2 & -> & -> & _ & _).
  rewrite !length_app. reflexivity.
Qed.

Lemma assignTasks_size (s : QueuePool.qstate) :
  length (QueuePool.qpool (QueuePool.assignTasks s)) = length (QueuePool.qpool s) /\
  QueuePool.building (QueuePool.assignTasks s) = QueuePool.building s.
Proof.
  unfold QueuePool.assignTasks. destruct (QueuePool.taskQueue s); [auto |].
  destruct (QueuePool.updFirst _ _ _) as [[w p']|] eqn:U; [|auto].
  simpl. split; [exact (updFirst_length _ _ _ _ _ U) | reflexivity].
Qed.

Lemma qstep_size (c : QueuePool.qconfig) (s s' : QueuePool.qstate)
  (ev : QueuePool.qev) :
  QueuePool.qstep c s ev = Some s' ->
  (length (QueuePool.qpool s) + QueuePool.building s <= QueuePool.qpoolSize c)%nat ->
  (length (QueuePool.qpool s') + QueuePool.building s' <= QueuePool.qpoolSize c)%nat.
Proof.
  destruct ev as [e|h|h| |]; simpl; intros H Hb.
  - injection H as <-. unfold QueuePool.run.
    destruct (assignTasks_size
                (QueuePool.mkQState (QueuePool.qpool s) (QueuePool.taskQueue s ++ [e])
                   (QueuePool.qlog s) (QueuePool.settled s) (QueuePool.nexth s)
                   (QueuePool.building s) (QueuePool.qterminated s)
                   (QueuePool.qdead s))) as [-> ->].
    exact Hb.
  - destruct (existsb _ _); [discriminate |].
    unfold QueuePool.handleWorkerResult in H.
    destruct (QueuePool.updFirst _ _ _) as [[w p']|] eqn:U; [|discriminate].
    injection H as <-. rewrite (proj1 (assignTasks_size _)), (proj2 (assignTasks_size _)).
    simpl. rewrite (updFirst_length _ _ _ _ _ U). exact Hb.
  - injection H as <-. exact Hb.
  - destruct (QueuePool.building s) as [|b] eqn:E; [discriminate |].
    injection H as <-. simpl. rewrite length_app. simpl. lia.
  - injection H as <-. simpl. lia.
Qed.

Lemma qrun_size (c : QueuePool.qconfig) (evs : list QueuePool.qev)
  (s s' : QueuePool.qstate) :
  (length (QueuePool.qpool s) + QueuePool.building s <= QueuePool.qpoolSize c)%nat ->
  QueuePool.qrun c s evs = Some s' ->
  (length (QueuePool.qpool s') + QueuePool.building s' <= QueuePool.qpoolSize c)%nat.
Proof.
  revert s. induction evs as [|ev evs IH]; intros s Hb H; simpl in H.
  - injection H as <-. exact Hb.
  - destruct (QueuePool.qstep c s ev) as [s1|] eqn:E; [|discriminate].
    exact (IH s1 (qstep_size c s s1 ev E Hb) H).
Qed.

(** C4: in every reachable state of the [index.js] pool (any interleaving
    of [buildPool], [run]'s shift, message and error handlers,
    [addNewWorkerToPool], [terminateExcessWorkers] and
    [terminateAllWorkers]) and after every run of events of the [part_001]
    pool, [this.pool] holds at most [poolSize] workers. *)
Theorem pool_size_bounded :
  (forall (c : IndexPool.config) (env : nat -> IndexPool.spawn)
          (s : IndexPool.istate),
      IndexPool.reachable c env s ->
      (length (IndexPool.pool s) <= IndexPool.poolSize c)%nat) /\
  (forall (c : QueuePool.qconfig) (evs : list QueuePool.qev)
          (s : QueuePool.qstate),
      QueuePool.qrun c (QueuePool.qinit c) evs = Some s ->
      (length (QueuePool.qpool s) <= QueuePool.qpoolSize c)%nat).
Proof.
  split.
  - exact IndexBounds.reachable_bound.
  - intros c evs s H.
    pose proof (qrun_size c evs (QueuePool.qinit c) s ltac:(simpl; lia) H).
    lia.
Qed.

Lemma pool_size_bounded_witness :
  (IndexPool.reachable (IndexPool.mkConfig 2 90 true 1000)
     (fun _ => IndexPool.SpawnOk) IndexPool.init /\
   (length (IndexPool.pool IndexPool.init) <= 2)%nat) /\
  (exists s, QueuePool.qrun (QueuePool.mkQConfig 2 true)
               (QueuePool.qinit (QueuePool.mkQConfig 2 true))
               QueueFacts.fifo_scenario = Some s /\
             (length (QueuePool.qpool s) <= 2)%nat).
Proof.
  split.
  - split; [apply IndexPool.reach_init |].
    apply (proj1 pool_size_bounded (IndexPool.mkConfig 2 90 true 1000)
             (fun _ => IndexPool.SpawnOk)).
    apply IndexPool.reach_init.
  - eexists. split; [vm_compute; reflexivity |].
    apply (proj2 pool_size_bounded (QueuePool.mkQConfig 2 true)
             QueueFacts.fifo_scenario).
    vm_compute. reflexivity.
Defined.

(** C8: in both pools [terminateAllWorkers] always ends with an empty
    pool, and a second call changes nothing (it terminates no worker). *)
Theorem terminateAllWorkers_idempotent :
  (forall s : IndexPool.istate,
      IndexPool.pool (IndexPool.terminateAllWorkers s) = [] /\
      IndexPool.terminateAllWorkers (IndexPool.terminateAllWorkers s) =
      IndexPool.terminateAllWorkers s) /\
  (forall s : QueuePool.qstate,
      QueuePool.qpool (QueuePool.terminateAllWorkers s) = [] /\
      QueuePool.terminateAllWorkers (QueuePool.terminateAllWorkers s) =
      QueuePool.terminateAllWorkers s).
Proof.
  split; intros s.
  - split; [apply IndexBounds.terminateAllWorkers_pool |].
    apply IndexBounds.terminateAllWorkers_empty.
    apply IndexBounds.terminateAllWorkers_pool.
  - split; [reflexivity |]. unfold QueuePool.terminateAllWorkers. simpl.
    rewrite app_nil_r. reflexivity.
Qed.

End PoolFacts.

(** * Worker creation failures during [buildPool] *)
Module BuildFacts.
Import IndexPool.

(** Number of [new Worker] calls, from call [h] on, whose worker later
    emits ['error']. *)
Fixpoint count_async (env : nat -> spawn) (h n : nat) : nat :=
  match n with
  | O => O
  | S n' =>
      ((match env h with SpawnAsyncError => 1 | _ => 0 end) +
       count_async env (S h) n')%nat
  end.

Lemma buildLoop_throw (env : nat -> spawn) (m : nat) :
  forall i fuel s, (m < fuel)%nat ->
  (forall j, (j < m)%nat -> env (spawned s + j)%nat <> SpawnThrow) ->
  env (spawned s + m)%nat = SpawnThrow ->
  length (pool (fst (buildLoop env i fuel s))) = (length (pool s) + m)%nat /\
  snd (buildLoop env i fuel s) = UnhandledRejection.
Proof.
  induction m as [|m IH]; intros i fuel s Hf Hok Hk;
    (destruct fuel as [|fuel]; [lia |]); simpl.
  - rewrite Nat.add_0_r in Hk. rewrite Hk. simpl. split; [lia | reflexivity].
  - assert (H0 : env (spawned s) <> SpawnThrow)
      by (rewrite <- (Nat.add_0_r (spawned s)); apply Hok; lia).
    destruct (env (spawned s)) eqn:E; [| | contradiction];
    match goal with
    | |- context [buildLoop env (S i) fuel ?s1] =>
        destruct (IH (S i) fuel s1) as [Hl Hr];
        [ lia
        | intros j Hj; simpl; replace (S (spawned s + j)) with
            (spawned s + S j)%nat by lia; apply Hok; lia
        | simpl; replace (S (spawned s + m)) with (spawned s + S m)%nat
            by lia; exact Hk
        | rewrite Hl; simpl; rewrite length_app; simpl;
          split; [lia | exact Hr] ]
    end.
Qed.

Lemma buildLoop_nothrow (env : nat -> spawn) (fuel : nat) :
  forall i s,
  (forall j, (j < fuel)%nat -> env (spawned s + j)%nat <> SpawnThrow) ->
  length (pool (fst (buildLoop env i fuel s))) = (length (pool s) + fuel)%nat /\
  snd (buildLoop env i fuel s) = Resolved /\
  errlog (fst (buildLoop env i fuel s)) =
  (errlog s + count_async env (spawned s) fuel)%nat.
Proof.
  induction fuel as [|fuel IH]; intros i s Hok; simpl.
  - repeat split; lia.
  - assert (H0 : env (spawned s) <> SpawnThrow)
      by (rewrite <- (Nat.add_0_r (spawned s)); apply Hok; lia).
    destruct (env (spawned s)) eqn:E; [| | contradiction];
    match goal with
    | |- context [buildLoop env (S i) fuel ?s1] =>
        destruct (IH (S i) s1) as (Hl & Hr & He);
        [ intros j Hj; simpl; replace (S (spawned s + j)) with
            (spawned s + S j)%nat by lia; apply Hok; lia
        | rewrite Hl, He; simpl; rewrite length_app; simpl;
          repeat split; try exact Hr; rewrite ?E; simpl; lia ]
    end.
Qed.

(** C9 (amended): in the [part_001] pool, the first [addWorkerToPool]
    that fails (throws, or never comes online) is logged and stops
    [buildPool]: the pool has exactly the workers created before it, and
    the remaining creations never happen. In [index.js], a worker whose
    startup fails through its ['error'] event is logged by [handleError]
    and the remaining creations proceed: all [poolSize] workers are pushed,
    the failed ones included, and [buildPool] resolves. *)
Theorem buildPool_failure_not_isolated :
  (forall (c : QueuePool.qconfig) (env : nat -> QueuePool.qspawn) (k : nat),
      (k < QueuePool.qpoolSize c)%nat ->
      (forall j, (j < k)%nat -> env j = QueuePool.QOk) ->
      env k <> QueuePool.QOk ->
      length (fst (fst (QueuePool.buildPool c env))) = k /\
      snd (fst (QueuePool.buildPool c env)) = true) /\
  (forall (c : config) (env : nat -> spawn) (s : istate),
      pool s = [] ->
      (forall j, (j < poolSize c)%nat -> env (spawned s + j)%nat <> SpawnThrow) ->
      length (pool (fst (buildPool c env s))) = poolSize c /\
      snd (buildPool c env s) = Resolved /\
      errlog (fst (buildPool c env s)) =
      (errlog s + count_async env (spawned s) (poolSize c))%nat).
Proof.
  split.
  - intros c env k Hk Hok Hf. unfold QueuePool.buildPool.
    exact (QueueSettle.buildLoop_stops env k 0 (QueuePool.qpoolSize c) []
             Hk (fun j Hj => Hok j ltac:(lia)) Hf).
  - intros c env s Hp Hok. unfold buildPool.
    destruct (buildLoop_nothrow env (poolSize c) 0 s Hok) as (Hl & Hr & He).
    rewrite Hl, Hp. auto.
Qed.

Definition one_throw (k : nat) : nat -> QueuePool.qspawn :=
  fun j => if Nat.eqb j k then QueuePool.QThrow else QueuePool.QOk.

Definition idx_env : nat -> spawn :=
  fun j => if Nat.eqb j 1 then SpawnAsyncError else SpawnOk.

Lemma buildPool_failure_not_isolated_witness :
  ((1 < QueuePool.qpoolSize (QueuePool.mkQConfig 3 true))%nat /\
   length (fst (fst (QueuePool.buildPool (QueuePool.mkQConfig 3 true)
                       (one_throw 1)))) = 1%nat) /\
  (length (pool (fst (buildPool (mkConfig 3 90 true 1000) idx_env init)))
   = 3%nat /\
   errlog (fst (buildPool (mkConfig 3 90 true 1000) idx_env init)) = 1%nat).
Proof.
  split.
  - split; [simpl; lia |].
    apply (proj1 buildPool_failure_not_isolated (QueuePool.mkQConfig 3 true)
             (one_throw 1) 1%nat); simpl; [lia | | discriminate].
    intros j Hj. unfold one_throw. destruct (Nat.eqb_spec j 1); [lia | reflexivity].
  - assert (Hok : forall j, (j < poolSize (mkConfig 3 90 true 1000))%nat ->
                   idx_env (spawned init + j)%nat <> SpawnThrow).
    { intros j _. unfold idx_env. destruct (Nat.eqb _ 1); discriminate. }
    destruct (proj2 buildPool_failure_not_isolated
                (mkConfig 3 90 true 1000) idx_env init eq_refl Hok)
      as (Hl & _ & He).
    split; [exact Hl | rewrite He; reflexivity].
Defined.

(** C9 (as stated) fails: a pool of 3 whose first creation throws ends
    with no worker at all, not with the 2 the other creations would give. *)
Lemma buildPool_failure_counterexample :
  ~ (forall (c : QueuePool.qconfig) (env : nat -> QueuePool.qspawn) (k : nat),
        (k < QueuePool.qpoolSize c)%nat -> env k <> QueuePool.QOk ->
        (forall j, j <> k -> env j = QueuePool.QOk) ->
        length (fst (fst (QueuePool.buildPool c env))) =
        (QueuePool.qpoolSize c - 1)%nat).
Proof.
  intros H.
  specialize (H (QueuePool.mkQConfig 3 true) (one_throw 0) 0%nat).
  assert (Hc : length (fst (fst (QueuePool.buildPool (QueuePool.mkQConfig 3 true)
                                   (one_throw 0)))) = 2%nat).
  { apply H; [simpl; lia | discriminate |].
    intros j Hj. unfold one_throw. destruct (Nat.eqb_spec j 0); [lia | reflexivity]. }
  vm_compute in Hc. discriminate Hc.
Qed.

End BuildFacts.

(** * Further properties of [src/index.js] *)
Module IndexExtra.
Import Mem DoubleFacts Rate IndexPool.

Lemma accepted_spaced_from (thr last : Z) (nows : list Z) :
  spaced thr (last :: accepted (mkTaskManager (Some last) thr) nows).
Proof.
  revert last. induction nows as [|now rest IH]; intros last; simpl; [exact I |].
  destruct (thr <=? now - last) eqn:E.
  - apply Z.leb_le in E. split; [exact E | apply IH].
  - apply IH.
Qed.

(** [canExecuteTask] admits the first call, and the calls it admits are
    always at least [idleThreshold] apart: a refused call does not move
    [lastTaskTime]. *)
Theorem rate_gate_spacing (thr : Z) (nows : list Z) :
  spaced thr (accepted (mkTaskManager None thr) nows) /\
  (forall t rest, accepted (mkTaskManager None thr) (t :: rest) =
                  t :: accepted (mkTaskManager (Some t) thr) rest).
Proof.
  split; [| reflexivity].
  destruct nows as [|t rest]; [exact I |]. apply accepted_spaced_from.
Qed.

Definition as429 (r : response) : response :=
  match r with
  | RespOk _ id cap => RespOk 429 id cap
  | RespErr st => RespErr st
  end.

(** The rate flag never gates execution: [run] with a refused
    [canExecuteTask] does exactly what it does with an admitted one, and
    only a successful response's status changes, from 200 to 429. *)
Theorem run_rate_flag_status_only (c : config) (env : nat -> spawn)
  (free : Z) (ex : exec) (s : istate) :
  run c env false free ex s =
  option_map (fun p => (fst p, as429 (snd p))) (run c env true free ex s) /\
  (forall s' st id cap,
      run c env true free ex s = Some (s', RespOk st id cap) -> st = 200).
Proof.
  unfold run.
  destruct (match pool s with [] => buildPool c env s | _ => (s, Resolved) end)
    as [s1 ok].
  destruct ok; simpl; [|split; [reflexivity | discriminate]].
  destruct (pool s1) as [|w rest]; simpl; [split; [reflexivity | discriminate] |].
  destruct (getMemPercent _ _ _); simpl; [split; [reflexivity | discriminate] |].
  destruct ex; simpl; split; try reflexivity; try discriminate.
  intros s' st id cap H. injection H as _ <- _ _. reflexivity.
Qed.

Definition one_worker : istate := mkIState [mkWorker 1 0 true] [] [] 1 [] 0.

Lemma run_rate_flag_status_only_witness :
  (run (mkConfig 1 90 true 1000) (fun _ => SpawnOk) true 500 ExecMessage
     one_worker = Some (one_worker, RespOk 200 1%nat (JBool true))) /\
  (run (mkConfig 1 90 true 1000) (fun _ => SpawnOk) false 500 ExecMessage
     one_worker = Some (one_worker, RespOk 429 1%nat (JBool true))) /\
  (200 = 200).
Proof.
  split; [vm_compute; reflexivity |]. split.
  - rewrite (proj1 (run_rate_flag_status_only (mkConfig 1 90 true 1000)
                      (fun _ => SpawnOk) 500 ExecMessage one_worker)).
    vm_compute. reflexivity.
  - apply (proj2 (run_rate_flag_status_only (mkConfig 1 90 true 1000)
                    (fun _ => SpawnOk) 500 ExecMessage one_worker)
             one_worker 200 1%nat (JBool true)).
    vm_compute. reflexivity.
Defined.

(** The order of numbers other than [NaN], [-Infinity] lowest. *)
Definition num_le (v w : num) : Prop :=
  match v, w with
  | NaN, _ | _, NaN => False
  | NInf, _ | _, PInf => True
  | Fin x, Fin y => (x <= y)%Q
  | _, _ => False
  end.

Lemma Qle_bool_false_lt x y : Qle_bool x y = false -> (y < x)%Q.
Proof. intros H. apply Qnot_le_lt. intros H'. apply Qle_bool_iff in H'. congruence. Qed.

Lemma round_even_bounds y : Qfloor y <= round_even y <= Qfloor y + 1.
Proof. unfold round_even. cbv zeta. destruct (_ ?= _)%Q; [destruct (Z.even _)|..]; lia. Qed.

Lemma round_even_mono y y' : (y <= y')%Q -> round_even y <= round_even y'.
Proof.
  intros H. pose proof (Qfloor_resp_le _ _ H) as Hf.
  pose proof (round_even_bounds y). pose proof (round_even_bounds y').
  destruct (Z.eq_dec (Qfloor y) (Qfloor y')) as [E|E]; [| lia].
  unfold round_even. cbv zeta. rewrite <- E.
  destruct (Qcompare_spec (y - inject_Z (Qfloor y)) (1 # 2)) as [E1|E1|E1];
  destruct (Qcompare_spec (y' - inject_Z (Qfloor y)) (1 # 2)) as [E2|E2|E2];
  try (destruct (Z.even _)); try lia; exfalso; lra.
Qed.

Lemma round_even_le_Z y z : (y <= inject_Z z)%Q -> round_even y <= z.
Proof. intros H. rewrite <- (round_even_Z z). apply round_even_mono, H. Qed.

Lemma round_even_ge_Z y z : (inject_Z z <= y)%Q -> z <= round_even y.
Proof. intros H. rewrite <- (round_even_Z z) at 1. apply round_even_mono, H. Qed.

Lemma ilog2_upper x : (0 < x)%Q -> (x < pow2 (ilog2 x + 1))%Q.
Proof.
  intros Hx. rewrite <- (Qred_correct x) at 1. unfold ilog2.
  assert (Hx0 : (0 < Qred x)%Q) by (rewrite Qred_correct; exact Hx).
  set (x0 := Qred x) in *. clearbody x0. destruct x0 as [a b].
  simpl Qnum; simpl Qden.
  assert (Ha : 0 < a) by (unfold Qlt in Hx0; simpl in Hx0; lia).
  set (k := Z.log2 a - Z.log2 (Z.pos b)).
  destruct (Qle_bool (pow2 k) (a # b)) eqn:E.
  - pose proof (Z.log2_spec a Ha) as [Ha1 Ha2].
    pose proof (Z.log2_spec (Z.pos b) ltac:(lia)) as [Hb1 Hb2].
    pose proof (Z.log2_nonneg a). pose proof (Z.log2_nonneg (Z.pos b)).
    rewrite Qmake_Qdiv. apply Qlt_shift_div_r.
    { change 0%Q with (inject_Z 0). rewrite <- Zlt_Qlt. lia. }
    apply Qlt_le_trans with (inject_Z (2 ^ Z.succ (Z.log2 a))).
    + rewrite <- Zlt_Qlt. exact Ha2.
    + rewrite <- pow2_Z by lia.
      replace (Z.succ (Z.log2 a)) with (k + 1 + Z.log2 (Z.pos b)) by (unfold k; lia).
      rewrite pow2_add. rewrite (Qmult_le_l _ _ _ (pow2_pos (k + 1))).
      rewrite pow2_Z by lia. rewrite <- Zle_Qle. exact Hb1.
  - replace (k - 1 + 1) with k by lia. apply Qle_bool_false_lt, E.
Qed.

Lemma ilog2_mono x y : (0 < x)%Q -> (x <= y)%Q -> ilog2 x <= ilog2 y.
Proof.
  intros Hx Hxy. pose proof (ilog2_lower' x Hx).
  pose proof (ilog2_upper y ltac:(lra)).
  assert (ilog2 x < ilog2 y + 1) by (apply pow2_lt_inv; lra). lia.
Qed.

Lemma fl_pos_mono x y : (0 < x)%Q -> (x <= y)%Q -> (fl_pos x <= fl_pos y)%Q.
Proof.
  intros Hx Hxy. assert (Hy : (0 < y)%Q) by lra.
  pose proof (ilog2_upper x Hx) as Ux.
  pose proof (ilog2_lower' y Hy) as Ly. pose proof (ilog2_mono x y Hx Hxy) as Hk.
  unfold fl_pos. cbv zeta.
  remember (ilog2 x) as kx. remember (ilog2 y) as ky.
  remember (Z.max (kx - 52) (-1074)) as ex eqn:Ex.
  remember (Z.max (ky - 52) (-1074)) as ey eqn:Ey.
  destruct (Z.eq_dec ex ey) as [E|E].
  - rewrite E. apply Qmult_le_compat_r; [| apply Qlt_le_weak, pow2_pos].
    rewrite <- Zle_Qle. apply round_even_mono.
    apply Qmult_le_compat_r; [exact Hxy | apply Qlt_le_weak, pow2_pos].
  - assert (Hey : ey = ky - 52) by lia.
    assert (Hex : kx + 1 - ex <= 53 /\ ex + 53 <= ky) by lia.
    assert (H1 : round_even (x * pow2 (- ex)) <= 2 ^ 53).
    { apply round_even_le_Z. rewrite <- pow2_Z by lia.
      apply Qlt_le_weak. apply Qlt_le_trans with (pow2 (kx + 1) * pow2 (- ex))%Q.
      - apply Qmult_lt_compat_r; [apply pow2_pos | exact Ux].
      - rewrite <- pow2_add. apply pow2_le. lia. }
    assert (H2 : 2 ^ 52 <= round_even (y * pow2 (- ey))).
    { apply round_even_ge_Z. rewrite <- pow2_Z by lia.
      apply Qle_trans with (pow2 ky * pow2 (- ey))%Q.
      - rewrite <- pow2_add. apply pow2_le. lia.
      - apply Qmult_le_compat_r; [exact Ly | apply Qlt_le_weak, pow2_pos]. }
    apply Qle_trans with (pow2 ky).
    + apply Qle_trans with (inject_Z (2 ^ 53) * pow2 ex)%Q.
      * apply Qmult_le_compat_r; [rewrite <- Zle_Qle; exact H1 | apply Qlt_le_weak, pow2_pos].
      * rewrite <- pow2_Z by lia. rewrite <- pow2_add. apply pow2_le. lia.
    + apply Qle_trans with (inject_Z (2 ^ 52) * pow2 ey)%Q.
      * rewrite <- pow2_Z by lia. rewrite <- pow2_add. apply pow2_le. lia.
      * apply Qmult_le_compat_r; [rewrite <- Zle_Qle; exact H2 | apply Qlt_le_weak, pow2_pos].
Qed.

Lemma fl_nonpos x : (x <= 0)%Q -> (fl x <= 0)%Q.
Proof.
  intros Hx. destruct (Qcompare_spec x 0) as [E|E|E].
  - rewrite (fl_eq x E). apply Qle_refl.
  - rewrite (fl_lt x E). pose proof (fl_nonneg (- x) ltac:(lra)) as H.
    rewrite (fl_gt (- x)) in H by lra. lra.
  - lra.
Qed.

(** Rounding to the nearest double is monotone. *)
Lemma fl_mono x y : (x <= y)%Q -> (fl x <= fl y)%Q.
Proof.
  intros H. destruct (Qlt_le_dec 0 x) as [Hx|Hx].
  - rewrite (fl_gt x Hx), (fl_gt y) by lra. apply fl_pos_mono; lra.
  - destruct (Qlt_le_dec 0 y) as [Hy|Hy].
    + pose proof (fl_nonpos x Hx). pose proof (fl_nonneg y ltac:(lra)). lra.
    + destruct (Qcompare_spec y 0) as [E|E|E].
      * rewrite (fl_eq y E). apply fl_nonpos, Hx.
      * rewrite (fl_lt x), (fl_lt y) by lra.
        pose proof (fl_pos_mono (- y) (- x) ltac:(lra) ltac:(lra)). lra.
      * lra.
Qed.

Lemma num_le_dbl_bot x : num_le NInf (dbl x).
Proof. unfold dbl. destruct (Qle_bool _ _); [destruct (Qle_bool _ _)|]; exact I. Qed.

Lemma num_le_dbl_top x : num_le (dbl x) PInf.
Proof. unfold dbl. destruct (Qle_bool _ _); [destruct (Qle_bool _ _)|]; exact I. Qed.

Lemma dbl_mono x y : (x <= y)%Q -> num_le (dbl x) (dbl y).
Proof.
  intros H. pose proof (fl_mono x y H) as Hf. unfold dbl.
  destruct (Qle_bool (pow2 1024) (Qabs (fl x))) eqn:Ex.
  - apply Qle_bool_iff in Ex. destruct (Qle_bool 0 x) eqn:Sx.
    + apply Qle_bool_iff in Sx.
      pose proof (fl_nonneg x Sx). pose proof (fl_nonneg y ltac:(lra)).
      rewrite (Qabs_pos (fl x)) in Ex by assumption.
      assert (Ey : Qle_bool (pow2 1024) (Qabs (fl y)) = true)
        by (apply Qle_bool_iff; rewrite Qabs_pos by assumption; lra).
      assert (Sy : Qle_bool 0 y = true) by (apply Qle_bool_iff; lra).
      rewrite Ey, Sy. exact I.
    + destruct (Qle_bool (pow2 1024) (Qabs (fl y))); [destruct (Qle_bool 0 y)|];
        exact I.
  - apply Qle_bool_false_lt in Ex.
    destruct (Qle_bool (pow2 1024) (Qabs (fl y))) eqn:Ey;
      [destruct (Qle_bool 0 y) eqn:Sy|].
    + exact I.
    + exfalso. apply Qle_bool_iff in Ey. apply Qle_bool_false_lt in Sy.
      pose proof (fl_nonpos y ltac:(lra)). pose proof (fl_nonpos x ltac:(lra)).
      rewrite (Qabs_neg (fl y)) in Ey by assumption.
      rewrite (Qabs_neg (fl x)) in Ex by assumption. lra.
    + exact Hf.
Qed.

Lemma num_sub_anti a v w :
  num_le v w -> num_le (num_sub (Fin a) w) (num_sub (Fin a) v).
Proof.
  intros H. destruct v as [p| | |], w as [q| | |]; simpl in H; try contradiction.
  - change (num_le (dbl (a - q)) (dbl (a - p))). apply dbl_mono. lra.
  - change (num_le NInf (dbl (a - p))). apply num_le_dbl_bot.
  - exact I.
  - change (num_le (dbl (a - q)) PInf). apply num_le_dbl_top.
  - exact I.
  - exact I.
Qed.

Lemma num_div_pos_mono a v w : (0 < a)%Q ->
  num_le v w -> num_le (num_div v (Fin a)) (num_div w (Fin a)).
Proof.
  intros Ha H. assert (Ha0 : Qeq_bool a 0 = false) by (apply Qeq_bool_false; lra).
  assert (Hc : (a ?= 0)%Q = Gt) by (apply Qgt_alt; exact Ha).
  assert (Dv : forall x, num_div (Fin x) (Fin a) = dbl (x / a))
    by (intros x; cbn [num_div]; rewrite Ha0; reflexivity).
  assert (Dp : num_div PInf (Fin a) = PInf) by (cbn [num_div]; rewrite Hc; reflexivity).
  assert (Dn : num_div NInf (Fin a) = NInf) by (cbn [num_div]; rewrite Hc; reflexivity).
  destruct v as [p| | |], w as [q| | |]; simpl in H; try contradiction;
    rewrite ?Dv, ?Dp, ?Dn.
  - apply dbl_mono. unfold Qdiv. apply Qmult_le_compat_r; [exact H |].
    apply Qlt_le_weak, Qinv_lt_0_compat, Ha.
  - apply num_le_dbl_top.
  - exact I.
  - apply num_le_dbl_bot.
  - exact I.
  - exact I.
Qed.

Lemma num_mul_pos_mono c v w : (0 < c)%Q ->
  num_le v w -> num_le (num_mul v (Fin c)) (num_mul w (Fin c)).
Proof.
  intros Hc0 H. assert (Hc : (c ?= 0)%Q = Gt) by (apply Qgt_alt; exact Hc0).
  assert (Mv : forall x, num_mul (Fin x) (Fin c) = dbl (x * c))
    by (intros x; reflexivity).
  assert (Mp : num_mul PInf (Fin c) = PInf) by (cbn [num_mul]; rewrite Hc; reflexivity).
  assert (Mn : num_mul NInf (Fin c) = NInf) by (cbn [num_mul]; rewrite Hc; reflexivity).
  destruct v as [p| | |], w as [q| | |]; simpl in H; try contradiction;
    rewrite ?Mv, ?Mp, ?Mn.
  - apply dbl_mono. apply Qmult_le_compat_r; [exact H | lra].
  - apply num_le_dbl_top.
  - exact I.
  - apply num_le_dbl_bot.
  - exact I.
  - exact I.
Qed.

(** The decimal value [toFixed(1)] prints for [|v| < 1e21]. *)
Definition fixed1 (x : Q) : Q :=
  let n := Qfloor (10 * Qabs x + (1 # 2)) in
  if Qle_bool 0 x then inject_Z n / 10 else - (inject_Z n / 10).

Lemma toFixed1_fin x : toFixed1 (Fin x) =
  if Qle_bool (1000000000000000000000 # 1) (Qabs x) then Fin x else Fin (fl (fixed1 x)).
Proof. reflexivity. Qed.

Lemma fixed1_floor_nonneg x : 0 <= Qfloor (10 * Qabs x + (1 # 2)).
Proof.
  pose proof (Qabs_nonneg x) as H.
  assert (H' : (inject_Z 0 <= 10 * Qabs x + (1 # 2))%Q)
    by (change (inject_Z 0) with 0%Q; lra).
  pose proof (Qfloor_resp_le _ _ H') as Hf. rewrite Qfloor_Z in Hf. exact Hf.
Qed.

Lemma fixed1_mono x y : (x <= y)%Q -> (fixed1 x <= fixed1 y)%Q.
Proof.
  intros H. unfold fixed1. cbv zeta.
  pose proof (fixed1_floor_nonneg x) as Nx. pose proof (fixed1_floor_nonneg y) as Ny.
  apply inject_Z_le in Nx, Ny. change (inject_Z 0) with 0%Q in Nx, Ny.
  destruct (Qle_bool 0 x) eqn:Sx; destruct (Qle_bool 0 y) eqn:Sy;
    [apply Qle_bool_iff in Sx, Sy | apply Qle_bool_iff in Sx; apply Qle_bool_false_lt in Sy
    | apply Qle_bool_false_lt in Sx; apply Qle_bool_iff in Sy
    | apply Qle_bool_false_lt in Sx, Sy]; qdiv10.
  - rewrite (Qabs_pos x), (Qabs_pos y) by assumption.
    assert (Hf : Qfloor (10 * x + (1 # 2)) <= Qfloor (10 * y + (1 # 2)))
      by (apply Qfloor_resp_le; lra).
    apply inject_Z_le in Hf. lra.
  - lra.
  - lra.
  - rewrite (Qabs_neg x), (Qabs_neg y) by lra.
    assert (Hf : Qfloor (10 * - y + (1 # 2)) <= Qfloor (10 * - x + (1 # 2)))
      by (apply Qfloor_resp_le; lra).
    apply inject_Z_le in Hf. lra.
Qed.

Lemma fixed1_bound x : (Qabs x < 1000000000000000000000 # 1)%Q ->
  (- (1000000000000000000000 # 1) <= fixed1 x <= 1000000000000000000000 # 1)%Q.
Proof.
  intros Hx. unfold fixed1. cbv zeta.
  set (n := Qfloor (10 * Qabs x + (1 # 2))).
  pose proof (fixed1_floor_nonneg x) as N0. fold n in N0.
  pose proof (Qfloor_le (10 * Qabs x + (1 # 2))) as Hn. fold n in Hn.
  assert (N1 : n <= 10000000000000000000000).
  { assert (inject_Z n < inject_Z (10000000000000000000000 + 1))%Q
      by (rewrite inject_Z_plus;
          change (inject_Z 10000000000000000000000) with (10000000000000000000000 # 1)%Q;
          change (inject_Z 1) with 1%Q; lra).
    rewrite <- Zlt_Qlt in H. lia. }
  apply inject_Z_le in N0, N1. change (inject_Z 0) with 0%Q in N0.
  change (inject_Z 10000000000000000000000) with (10000000000000000000000 # 1)%Q in N1.
  destruct (Qle_bool 0 x); qdiv10; lra.
Qed.

Lemma fl_1e21 : (fl (1000000000000000000000 # 1) == 1000000000000000000000 # 1)%Q /\
  (fl (- (1000000000000000000000 # 1)) == - (1000000000000000000000 # 1))%Q.
Proof.
  split.
  - rewrite (fl_proper _ (inject_Z 476837158203125 * pow2 21)) by reflexivity.
    rewrite fl_exact by lia. reflexivity.
  - rewrite (fl_proper _ (inject_Z (-476837158203125) * pow2 21)) by reflexivity.
    rewrite fl_exact by lia. reflexivity.
Qed.

Lemma toFixed1_mono v w : num_le v w -> num_le (toFixed1 v) (toFixed1 w).
Proof.
  destruct v as [x| | |], w as [y| | |]; intros H; simpl in H; try contradiction;
    try exact I.
  - rewrite !toFixed1_fin.
    pose proof fl_1e21 as [Tp Tn].
    destruct (Qle_bool (1000000000000000000000 # 1) (Qabs x)) eqn:Bx;
    destruct (Qle_bool (1000000000000000000000 # 1) (Qabs y)) eqn:By;
    [apply Qle_bool_iff in Bx, By | apply Qle_bool_iff in Bx; apply Qle_bool_false_lt in By
    | apply Qle_bool_false_lt in Bx; apply Qle_bool_iff in By
    | apply Qle_bool_false_lt in Bx, By]; simpl.
    + exact H.
    + destruct (Qlt_le_dec x 0) as [Sx|Sx].
      * rewrite (Qabs_neg x) in Bx by lra.
        pose proof (fixed1_bound y By) as [Lo _].
        pose proof (fl_mono _ _ Lo). lra.
      * rewrite (Qabs_pos x) in Bx by lra. rewrite (Qabs_pos y) in By by lra. lra.
    + destruct (Qlt_le_dec y 0) as [Sy|Sy].
      * rewrite (Qabs_neg y) in By by lra. rewrite (Qabs_neg x) in Bx by lra. lra.
      * rewrite (Qabs_pos y) in By by lra.
        pose proof (fixed1_bound x Bx) as [_ Hi].
        pose proof (fl_mono _ _ Hi). lra.
    + apply fl_mono, fixed1_mono, H.
  - rewrite toFixed1_fin. destruct (Qle_bool _ _); exact I.
  - rewrite toFixed1_fin. destruct (Qle_bool _ _); exact I.
Qed.

Lemma toMB_mono f f' : f' <= f -> num_le (toMB f') (toMB f).
Proof.
  intros H. unfold toMB.
  apply num_div_pos_mono; [reflexivity |]. apply num_div_pos_mono; [reflexivity |].
  simpl. apply fl_mono, inject_Z_le, H.
Qed.

Lemma memPercent_anti a f f' : (0 < a)%Q -> f' <= f ->
  num_le (memPercent (Fin a) f) (memPercent (Fin a) f').
Proof.
  intros Ha H. unfold memPercent.
  apply toFixed1_mono, num_mul_pos_mono; [reflexivity |].
  apply num_div_pos_mono; [exact Ha |]. apply num_sub_anti, toMB_mono, H.
Qed.

Lemma num_gt_mono v w thr : num_le v w -> num_gt v thr = true -> num_gt w thr = true.
Proof.
  destruct v as [x| | |], w as [y| | |]; simpl; intros H; try contradiction;
    try discriminate; try reflexivity.
  intros Hx. apply Qltb_iff in Hx. apply Qltb_iff. lra.
Qed.

(** The memory gate is monotone in free memory, under double arithmetic:
    for a load-time baseline of [0 < B < 2^53] bytes, when [getMemPercent]
    throws at some free-memory reading, it throws at every lower one. Each
    step ([/ 1024 / 1024], [-], [/], [* 100], [toFixed(1)]) rounds
    monotonically. *)
Theorem getMemPercent_throw_monotone (B f f' : Z) (thr : Q)
  (HB : 0 < B < 2 ^ 53) (Hf : f' <= f)
  (Hth : getMemPercent (toMB B) f thr = Throw 503) :
  getMemPercent (toMB B) f' thr = Throw 503.
Proof.
  destruct (toMB_exact B) as [a [Ea Ha]]; [lia |]. rewrite Ea in *.
  assert (Hpos : (0 < a)%Q).
  { rewrite Ha. apply Qmult_lt_0_compat; [| apply pow2_pos].
    change 0%Q with (inject_Z 0). rewrite <- Zlt_Qlt. lia. }
  unfold getMemPercent in *.
  destruct (num_gt (memPercent (Fin a) f) thr) eqn:E; [|discriminate].
  rewrite (num_gt_mono _ _ thr (memPercent_anti a f f' Hpos Hf) E). reflexivity.
Qed.

Lemma getMemPercent_throw_monotone_witness :
  (0 < 1000 < 2 ^ 53 /\ 40 <= 50 /\ getMemPercent (toMB 1000) 50 90 = Throw 503) /\
  getMemPercent (toMB 1000) 40 90 = Throw 503.
Proof.
  split; [split; [lia | split; [lia | vm_compute; reflexivity]] |].
  apply (getMemPercent_throw_monotone 1000 50 40 90);
    [lia | lia | vm_compute; reflexivity].
Defined.

Lemma popLoop_zero_terminates (fuel : nat) (p : list worker) (t : list nat) :
  (length p <= fuel)%nat ->
  snd (popLoop (JNumTenths 0) fuel p t) = t ++ map whandle (rev p).
Proof.
  revert p t. induction fuel as [|fuel IH]; intros p t Hl.
  - destruct p; [simpl; rewrite app_nil_r; reflexivity | simpl in Hl; lia].
  - cbn [popLoop]. destruct p as [|x p'].
    + simpl. rewrite app_nil_r. reflexivity.
    + assert (Hg : js_gt_nat (length (x :: p')) (JNumTenths 0) = true).
      { unfold js_gt_nat. apply Z.ltb_lt. simpl length. lia. }
      rewrite Hg.
      destruct (rev (x :: p')) as [|w r] eqn:Er.
      * simpl in Er. destruct (rev p'); discriminate.
      * assert (Hr : length (x :: p') = S (length (rev r))).
        { rewrite <- length_rev, Er. simpl. rewrite length_rev. reflexivity. }
        rewrite IH by (rewrite length_rev; rewrite length_rev in Hr; lia).
        rewrite rev_involutive, <- app_assoc. reflexivity.
Qed.

(** Shutdown of the [index.js] pool terminates exactly the workers in
    [this.pool], last one first, and nothing else: workers running a task
    (shifted out of the pool) and workers still starting are left
    running. *)
Theorem terminateAllWorkers_terminates_pool (s : istate) :
  terminated (terminateAllWorkers s) =
  terminated s ++ map whandle (rev (pool s)) /\
  inflight (terminateAllWorkers s) = inflight s /\
  pending (terminateAllWorkers s) = pending s.
Proof.
  unfold terminateAllWorkers.
  pose proof (popLoop_zero_terminates (length (pool s)) (pool s) [] (le_n _)) as H.
  destruct (popLoop (JNumTenths 0) (length (pool s)) (pool s) []) as [p t].
  simpl in *. rewrite H. auto.
Qed.

End IndexExtra.

(** * Successive [run] calls on the [src/index.js] pool *)
Module IndexRun.
Import Mem IndexPool.

(** [k] [run] calls one after the other, each admitted by the rate gate
    and each task answering with a message: the ids of the workers used. *)
Fixpoint runSeq (c : config) (env : nat -> spawn) (free : Z) (k : nat)
  (s : istate) : option (istate * list nat) :=
  match k with
  | O => Some (s, [])
  | S k' =>
      match run c env true free ExecMessage s with
      | Some (s1, RespOk _ id _) =>
          match runSeq c env free k' s1 with
          | Some (s2, ids) => Some (s2, id :: ids)
          | None => None
          end
      | _ => None
      end
  end.

Lemma set_pool_eta (s : istate) (p : list worker) :
  pool s = p -> set_pool s p = s.
Proof. destruct s; simpl; intros ->; reflexivity. Qed.

Lemma run_success_rotates (c : config) (env : nat -> spawn) (free : Z)
  (s : istate) (w : worker) (rest : list worker) (v : jsval) :
  pool s = w :: rest -> (length (pool s) <= poolSize c)%nat ->
  getMemPercent (freeMemoryAvailable c) free (memThreshold c) = Return v ->
  run c env true free ExecMessage s =
  Some (set_pool s (rest ++ [w]), RespOk 200 (wid w) v).
Proof.
  intros Hp Hl Hm. unfold run. rewrite Hp. simpl. rewrite Hp, Hm.
  unfold pushBack. simpl. rewrite Hp in Hl. simpl in Hl.
  replace (Nat.ltb (length rest) (poolSize c)) with true
    by (symmetry; apply Nat.ltb_lt; lia).
  rewrite IndexFacts.terminateExcessWorkers_id. reflexivity.
Qed.

Lemma runSeq_rotates (c : config) (env : nat -> spawn) (free : Z) (v : jsval)
  (Hm : getMemPercent (freeMemoryAvailable c) free (memThreshold c) = Return v)
  (a : list worker) :
  forall b s, pool s = a ++ b -> (length (a ++ b) <= poolSize c)%nat ->
  runSeq c env free (length a) s = Some (set_pool s (b ++ a), map wid a).
Proof.
  induction a as [|x a IH]; intros b s Hp Hl; simpl.
  - rewrite app_nil_r, set_pool_eta by exact Hp. reflexivity.
  - rewrite (run_success_rotates c env free s x (a ++ b) v Hp);
      [| rewrite Hp; exact Hl | exact Hm].
    rewrite (IH (b ++ [x]) (set_pool s ((a ++ b) ++ [x]))).
    + unfold set_pool; simpl. rewrite <- app_assoc. reflexivity.
    + simpl. rewrite app_assoc. reflexivity.
    + repeat rewrite length_app in *. simpl in *. lia.
Qed.

(** A pool with no more than [poolSize] workers is used round robin: [n]
    successful [run] calls on a pool of [n] workers use its workers in pool
    order, each once, and leave the pool as it was. *)
Theorem run_round_robin (c : config) (env : nat -> spawn) (free : Z)
  (v : jsval) (s : istate)
  (Hm : getMemPercent (freeMemoryAvailable c) free (memThreshold c) = Return v)
  (Hl : (length (pool s) <= poolSize c)%nat) :
  runSeq c env free (length (pool s)) s = Some (s, map wid (pool s)).
Proof.
  rewrite (runSeq_rotates c env free v Hm (pool s) [] s)
    by (rewrite ?app_nil_r; first [reflexivity | exact Hl]).
  simpl. rewrite set_pool_eta; reflexivity.
Qed.

Definition rr_state : istate :=
  mkIState [mkWorker 1 0 true; mkWorker 2 1 true; mkWorker 3 2 true] [] [] 3 [] 0.

Lemma run_round_robin_witness :
  (getMemPercent (toMB 1000) 500 90 = Return (JBool true) /\
   (length (pool rr_state) <= 3)%nat) /\
  runSeq (mkConfig 3 90 true 1000) (fun _ => SpawnOk) 500 3 rr_state =
  Some (rr_state, [1; 2; 3]%nat).
Proof.
  split; [split; [vm_compute; reflexivity | simpl; lia] |].
  apply (run_round_robin (mkConfig 3 90 true 1000) (fun _ => SpawnOk) 500
           (JBool true) rr_state); [vm_compute; reflexivity | simpl; lia].
Defined.

Lemma buildLoop_prefix (env : nat -> spawn) (fuel : nat) :
  forall i s, exists l, pool (fst (buildLoop env i fuel s)) = pool s ++ l.
Proof.
  induction fuel as [|fuel IH]; intros i s; simpl.
  - exists []. rewrite app_nil_r. reflexivity.
  - destruct (env (spawned s)); simpl.
    + destruct (IH (S i) (mkIState (pool s ++ [mkWorker (S i) (spawned s) true])
                            (inflight s) (pending s) (S (spawned s))
                            (terminated s) (errlog s))) as [l Hl].
      rewrite Hl. simpl. exists (mkWorker (S i) (spawned s) true :: l).
      rewrite <- app_assoc. reflexivity.
    + destruct (IH (S i) (mkIState (pool s ++ [mkWorker (S i) (spawned s) true])
                            (inflight s) (pending s) (S (spawned s))
                            (terminated s) (S (errlog s)))) as [l Hl].
      rewrite Hl. simpl. exists (mkWorker (S i) (spawned s) true :: l).
      rewrite <- app_assoc. reflexivity.
    + exists []. rewrite app_nil_r. reflexivity.
Qed.

(** [run] on an empty pool: with [poolSize] 0 the [while] loop never ends
    and the call never settles; otherwise, when no [new Worker] of the
    rebuild throws, [buildPool] creates [poolSize] workers, the task runs
    on worker [-1-], which then goes back to a pool of [poolSize]. *)
Theorem run_on_empty_pool :
  (forall (c : config) (env : nat -> spawn) (b : bool) (free : Z)
          (ex : exec) (s : istate),
      pool s = [] -> poolSize c = O -> run c env b free ex s = None) /\
  (forall (c : config) (env : nat -> spawn) (b : bool) (free : Z)
          (s : istate) (v : jsval),
      pool s = [] -> (0 < poolSize c)%nat ->
      (forall j, (j < poolSize c)%nat -> env (spawned s + j)%nat <> SpawnThrow) ->
      getMemPercent (freeMemoryAvailable c) free (memThreshold c) = Return v ->
      exists s', run c env b free ExecMessage s =
                 Some (s', RespOk (if b then 200 else 429) 1 v) /\
                 length (pool s') = poolSize c).
Proof.
  split.
  - intros c env b free ex s Hp H0. unfold run. rewrite Hp.
    unfold buildPool. rewrite H0. simpl. rewrite Hp. reflexivity.
  - intros c env b free s v Hp Hpos Hok Hm.
    destruct (BuildFacts.buildLoop_nothrow env (poolSize c) 0 s Hok)
      as (Hlen & Hres & _).
    destruct (poolSize c) as [|n] eqn:En; [lia |].
    assert (H0 : env (spawned s) <> SpawnThrow)
      by (rewrite <- (Nat.add_0_r (spawned s)); apply Hok; lia).
    assert (Hhead : exists l, pool (fst (buildPool c env s)) =
                              mkWorker 1 (spawned s) true :: l).
    { unfold buildPool. rewrite En. simpl.
      destruct (env (spawned s)); [| | contradiction];
      match goal with
      | |- context [buildLoop env 1 n ?s1] =>
          destruct (buildLoop_prefix env n 1 s1) as [l Hl];
          exists l; rewrite Hl; simpl; rewrite Hp; reflexivity
      end. }
    destruct Hhead as [l Hl].
    unfold buildPool in Hl. rewrite En in Hl.
    unfold run. rewrite Hp. unfold buildPool. rewrite En.
    destruct (buildLoop env 0 (S n) s) as [s1 ok] eqn:Eb. simpl in Hres, Hlen, Hl.
    subst ok. simpl. rewrite Hl, Hm.
    rewrite Hp in Hlen. rewrite Hl in Hlen. simpl in Hlen.
    eexists. split; [rewrite IndexFacts.terminateExcessWorkers_id; reflexivity |].
    simpl. unfold pushBack. simpl. rewrite En.
    replace (Nat.ltb (length l) (S n)) with true by (symmetry; apply Nat.ltb_lt; lia).
    rewrite length_app. simpl. lia.
Qed.

Lemma run_on_empty_pool_witness :
  run (mkConfig 0 90 true 1000) (fun _ => SpawnOk) true 500 ExecMessage init
  = None /\
  exists s', run (mkConfig 3 90 true 1000) (fun _ => SpawnOk) true 500
               ExecMessage init = Some (s', RespOk 200 1 (JBool true)) /\
             length (pool s') = 3%nat.
Proof.
  split.
  - apply (proj1 run_on_empty_pool); reflexivity.
  - apply (proj2 run_on_empty_pool (mkConfig 3 90 true 1000) (fun _ => SpawnOk)
             true 500 init (JBool true));
      [reflexivity | simpl; lia | intros; discriminate | vm_compute; reflexivity].
Defined.

(** A synchronous throw of [new Worker] in [buildPool] (at creation [k],
    the earlier ones succeeding) happens inside the executor of an [async]
    Promise: the rejection is unhandled and ends the process. The workers
    created before it are in the pool, and [run] never answers. *)
Theorem run_build_throw_unhandled (c : config) (env : nat -> spawn) (b : bool)
  (free : Z) (ex : exec) (s : istate) (k : nat)
  (Hp : pool s = []) (Hk : (k < poolSize c)%nat)
  (Hok : forall j, (j < k)%nat -> env (spawned s + j)%nat <> SpawnThrow)
  (Ht : env (spawned s + k)%nat = SpawnThrow) :
  length (pool (fst (buildPool c env s))) = k /\
  snd (buildPool c env s) = UnhandledRejection /\
  run c env b free ex s = None.
Proof.
  destruct (BuildFacts.buildLoop_throw env k 0 (poolSize c) s Hk Hok Ht)
    as [Hl Hr].
  unfold buildPool. rewrite Hl, Hp. split; [reflexivity | split; [exact Hr |]].
  unfold run. rewrite Hp. unfold buildPool.
  destruct (buildLoop env 0 (poolSize c) s) as [s1 e]. simpl in Hr. subst e.
  reflexivity.
Qed.

Definition throw_at_2 : nat -> spawn :=
  fun j => if Nat.eqb j 2 then SpawnThrow else SpawnOk.

Lemma run_build_throw_unhandled_witness :
  ((2 < poolSize (mkConfig 3 90 true 1000))%nat /\
   throw_at_2 (spawned init + 2)%nat = SpawnThrow) /\
  length (pool (fst (buildPool (mkConfig 3 90 true 1000) throw_at_2 init))) = 2%nat /\
  snd (buildPool (mkConfig 3 90 true 1000) throw_at_2 init) = UnhandledRejection /\
  run (mkConfig 3 90 true 1000) throw_at_2 true 500 ExecMessage init = None.
Proof.
  split; [split; [simpl; lia | reflexivity] |].
  apply (run_build_throw_unhandled (mkConfig 3 90 true 1000) throw_at_2 true 500
           ExecMessage init 2); [reflexivity | simpl; lia | | reflexivity].
  intros j Hj. unfold throw_at_2. simpl. destruct (Nat.eqb_spec j 2); [lia | discriminate].
Defined.

End IndexRun.

(** * Worker identities in the [src/index.js] pool *)
Module IndexHandles.
Import Mem IndexPool.

(** The handles of the live workers (in [this.pool], shifted out for a
    task, or waiting for ['online']) followed by those [terminate()] was
    called on. *)
Definition handles (s : istate) : list nat :=
  map whandle (pool s ++ inflight s ++ pending s) ++ terminated s.

Definition hinv (s : istate) : Prop :=
  NoDup (handles s) /\ (forall h, In h (handles s) -> (h < spawned s)%nat).

Lemma hinv_grow (s s' : istate) (fresh : list nat) :
  hinv s -> Permutation (handles s') (fresh ++ handles s) -> NoDup fresh ->
  (forall h, In h fresh -> spawned s <= h < spawned s')%nat ->
  (spawned s <= spawned s')%nat -> hinv s'.
Proof.
  intros [Hnd Hlt] Hp Hf Hin Hsp. split.
  - apply (Permutation_NoDup (Permutation_sym Hp)).
    apply NoDup_app; [exact Hf | exact Hnd |].
    intros a Ha Ha'. specialize (Hin a Ha). specialize (Hlt a Ha'). lia.
  - intros h Hh. apply (Permutation_in _ Hp), in_app_or in Hh.
    destruct Hh as [Hh|Hh]; [apply Hin in Hh | apply Hlt in Hh]; lia.
Qed.

Lemma hinv_shrink (s s' : istate) (x : nat) :
  hinv s -> Permutation (x :: handles s') (handles s) ->
  (spawned s <= spawned s')%nat -> hinv s'.
Proof.
  intros [Hnd Hlt] Hp Hsp. split.
  - apply (Permutation_NoDup (Permutation_sym Hp)) in Hnd.
    inversion Hnd; assumption.
  - intros h Hh. assert (In h (handles s)) as Hs
      by (apply (Permutation_in _ Hp); right; exact Hh).
    apply Hlt in Hs. lia.
Qed.

Lemma buildLoop_fresh (env : nat -> spawn) (fuel : nat) :
  forall i s, exists l,
    pool (fst (buildLoop env i fuel s)) = pool s ++ l /\
    inflight (fst (buildLoop env i fuel s)) = inflight s /\
    pending (fst (buildLoop env i fuel s)) = pending s /\
    terminated (fst (buildLoop env i fuel s)) = terminated s /\
    map whandle l = seq (spawned s) (length l) /\
    (spawned s + length l <= spawned (fst (buildLoop env i fuel s)))%nat.
Proof.
  induction fuel as [|fuel IH]; intros i s; simpl.
  - exists []. rewrite app_nil_r. simpl. repeat split; lia.
  - destruct (env (spawned s)); simpl;
      [| | exists []; rewrite app_nil_r; simpl; repeat split; lia];
    match goal with
    | |- context [buildLoop env (S i) fuel ?s1] =>
        destruct (IH (S i) s1) as (l & Hp & Hi & Hpe & Ht & Hm & Hs);
        exists (mkWorker (S i) (spawned s) true :: l);
        rewrite Hp, Hi, Hpe, Ht; simpl in *;
        rewrite <- app_assoc; repeat split; [rewrite Hm; reflexivity | lia]
    end.
Qed.

Lemma perm_mid (l1 l2 : list nat) (a : nat) :
  Permutation (l1 ++ a :: l2) (a :: l1 ++ l2).
Proof. apply Permutation_sym, Permutation_middle. Qed.

Lemma perm_mid2 (l1 l2 l3 : list nat) (a : nat) :
  Permutation (l1 ++ l2 ++ a :: l3) (a :: l1 ++ l2 ++ l3).
Proof. rewrite !app_assoc. apply perm_mid. Qed.

Lemma perm_mid3 (l1 l2 l3 l4 : list nat) (a : nat) :
  Permutation (l1 ++ l2 ++ l3 ++ a :: l4) (a :: l1 ++ l2 ++ l3 ++ l4).
Proof. rewrite !app_assoc. apply perm_mid. Qed.

(** Moves the element [a] found in the middle of the right-hand side to
    its front, and closes the goal up to that move. *)
Ltac perm_back :=
  apply Permutation_sym; first [apply perm_mid | apply perm_mid2 | apply perm_mid3].

Ltac norm_app := repeat (rewrite ?map_app; simpl; rewrite <- ?app_assoc; simpl).

Lemma istep_hinv (c : config) (env : nat -> spawn) (s s' : istate) :
  istep c env s s' -> hinv s -> hinv s'.
Proof.
  intros Hst Hi. destruct Hst.
  - (* buildPool *)
    unfold buildPool.
    destruct (buildLoop_fresh env (poolSize c) 0 s)
      as (l & Hp & Hin & Hpe & Ht & Hm & Hs).
    apply (hinv_grow s _ (map whandle l) Hi).
    + unfold handles. rewrite Hp, Hin, Hpe, Ht, H. simpl.
      rewrite !map_app, <- !app_assoc. apply Permutation_refl.
    + rewrite Hm. apply seq_NoDup.
    + intros h Hh. rewrite Hm in Hh. apply in_seq in Hh. lia.
    + lia.
  - (* shift, memory check passes *)
    apply (hinv_grow s _ [] Hi); [| constructor | intros ? [] | simpl; lia].
    unfold handles; simpl; rewrite H; norm_app. apply perm_mid.
  - (* shift, memory check throws *)
    apply (hinv_shrink s _ (whandle w) Hi); simpl; [| lia].
    unfold handles; simpl; rewrite H; norm_app. apply Permutation_refl.
  - (* message *)
    unfold pushBack. destruct (Nat.ltb (length (pool s)) (poolSize c)).
    + apply (hinv_grow s _ [] Hi); [| constructor | intros ? [] | simpl; lia].
      unfold handles; simpl; rewrite H; norm_app. eapply perm_trans; [apply perm_mid |].
      perm_back.
    + apply (hinv_shrink s _ (whandle w) Hi); simpl; [| lia].
      unfold handles; simpl; rewrite H; norm_app. perm_back.
  - (* error, logged or not *)
    unfold log_error. destruct (handleError w);
    (apply (hinv_shrink s _ (whandle w) Hi); simpl; [| lia]);
    unfold set_inflight, handles; simpl; rewrite H; norm_app; perm_back.
  - (* addNewWorkerToPool *)
    unfold addNewWorkerStart.
    destruct (Nat.leb (poolSize c) (length (pool s))); [exact Hi |].
    destruct (env (spawned s)).
    + apply (hinv_grow s _ [spawned s] Hi);
        [ unfold handles; simpl; norm_app; apply Permutation_sym; perm_back
        | constructor; [intros [] | constructor]
        | intros h [<-|[]]; simpl; lia
        | simpl; lia ].
    + apply (hinv_grow s _ [spawned s] Hi);
        [ unfold handles; simpl; norm_app; apply Permutation_sym; perm_back
        | constructor; [intros [] | constructor]
        | intros h [<-|[]]; simpl; lia
        | simpl; lia ].
    + apply (hinv_grow s _ [] Hi); [| constructor | intros ? [] | simpl; lia].
      apply Permutation_refl.
  - (* online *)
    unfold onOnline. destruct (Nat.ltb (length (pool s)) (poolSize c)).
    + apply (hinv_grow s _ [] Hi); [| constructor | intros ? [] | simpl; lia].
      unfold handles; simpl; rewrite H; norm_app. eapply perm_trans; [apply perm_mid |].
      perm_back.
    + apply (hinv_shrink s _ (whandle w) Hi); simpl; [| lia].
      unfold handles; simpl; rewrite H; norm_app. perm_back.
  - (* terminateExcessWorkers *)
    rewrite IndexFacts.terminateExcessWorkers_id. exact Hi.
  - (* terminateAllWorkers *)
    apply (hinv_grow s _ [] Hi); [| constructor | intros ? [] |].
    + unfold handles, terminateAllWorkers.
      pose proof (IndexExtra.popLoop_zero_terminates (length (pool s))
                    (pool s) [] (le_n _)) as Ht.
      pose proof (IndexBounds.popLoop_zero_empties (length (pool s))
                    (pool s) [] (le_n _)) as Hp.
      destruct (popLoop (JNumTenths 0) (length (pool s)) (pool s) [])
        as [p t]. simpl in *. rewrite Ht, Hp, map_rev. simpl. norm_app.
      set (X := map whandle (inflight s) ++ map whandle (pending s) ++
                terminated s).
      transitivity (rev (map whandle (pool s)) ++ X).
      * apply Permutation_trans with (X ++ rev (map whandle (pool s)));
          [unfold X; rewrite <- !app_assoc; apply Permutation_refl
          | apply Permutation_app_comm].
      * apply Permutation_app_tail, Permutation_sym, Permutation_rev.
    + unfold terminateAllWorkers.
      destruct (popLoop (JNumTenths 0) (length (pool s)) (pool s) []).
      simpl. lia.
Qed.

(** In every reachable state of the [index.js] pool, no [Worker] object
    is in two places at once: the workers in [this.pool], those shifted out
    and running a task, and those waiting for ['online'] are pairwise
    distinct and none of them has been terminated; no worker is
    terminated twice. In particular a worker is never handed a second task
    while it is still running one. *)
Theorem reachable_handles_distinct (c : config) (env : nat -> spawn)
  (s : istate) (H : reachable c env s) :
  NoDup (map whandle (pool s ++ inflight s ++ pending s) ++ terminated s) /\
  (forall w, In w (pool s ++ inflight s ++ pending s) ->
             (whandle w < spawned s)%nat).
Proof.
  assert (Hi : hinv s).
  { induction H as [|s s' _ IH Hst].
    - split; [constructor | intros h []].
    - exact (istep_hinv c env s s' Hst IH). }
  destruct Hi as [Hnd Hlt]. split; [exact Hnd |].
  intros w Hw. apply Hlt. apply in_or_app. left. apply in_map. exact Hw.
Qed.

Definition handles_trace_1 : istate :=
  fst (buildPool (mkConfig 2 90 true 1000) (fun _ => SpawnOk) init).

Definition handles_trace_2 : istate :=
  mkIState [mkWorker 2 1 true] [mkWorker 1 0 true] [] 2 [] 0.

Lemma reachable_handles_distinct_witness :
  reachable (mkConfig 2 90 true 1000) (fun _ => SpawnOk) handles_trace_2 /\
  NoDup (map whandle (pool handles_trace_2 ++ inflight handles_trace_2 ++
                      pending handles_trace_2) ++ terminated handles_trace_2).
Proof.
  assert (Hr : reachable (mkConfig 2 90 true 1000) (fun _ => SpawnOk)
                 handles_trace_2).
  { apply (reach_step _ _ handles_trace_1).
    - apply (reach_step _ _ init); [constructor |].
      apply st_build; reflexivity.
    - apply (st_take _ _ handles_trace_1 (mkWorker 1 0 true) [mkWorker 2 1 true]).
      reflexivity. }
  split; [exact Hr |].
  exact (proj1 (reachable_handles_distinct _ _ _ Hr)).
Defined.

End IndexHandles.

(** * Dispatch, settlement and shutdown of the [part_001] pool *)
Module QueueExtra.
Import QueuePool.

Lemma updFirst_none_inv (P : qworker -> bool) (f : qworker -> qworker)
  (l : list qworker) :
  updFirst P f l = None -> forall x, In x l -> P x = false.
Proof.
  induction l as [|y r IH]; simpl; intros H x Hx; [contradiction |].
  destruct (P y) eqn:Py; [discriminate |].
  destruct (updFirst P f r) as [[? ?]|]; [discriminate |].
  destruct Hx as [<-|Hx]; [exact Py | exact (IH eq_refl x Hx)].
Qed.

Lemma updFirst_skip (P : qworker -> bool) (f : qworker -> qworker)
  (l1 l2 : list qworker) (y : qworker) :
  (forall x, In x l1 -> P x = false) -> P y = true ->
  updFirst P f (l1 ++ y :: l2) = Some (y, l1 ++ f y :: l2).
Proof.
  induction l1 as [|x r IH]; simpl; intros H Py; [rewrite Py; reflexivity |].
  rewrite (H x (or_introl eq_refl)), IH; auto.
Qed.

(** No task waits in [taskQueue] while some worker of the pool is idle. *)
Definition work_conserving (s : qstate) : Prop :=
  taskQueue s = [] \/ (forall w, In w (qpool s) -> qbusy w = true).

Lemma assignTasks_single (s : qstate) :
  (length (taskQueue s) <= 1)%nat \/
  (forall w, In w (qpool s) -> qbusy w = true) ->
  work_conserving (assignTasks s).
Proof.
  intros H. unfold assignTasks, work_conserving.
  destruct (taskQueue s) as [|e q] eqn:Eq; [left; exact Eq |].
  destruct (updFirst (fun w => negb (qbusy w)) (markBusy e) (qpool s))
    as [[w p']|] eqn:Eu.
  - destruct H as [H|H].
    + left. simpl in H. simpl. destruct q; [reflexivity | simpl in H; lia].
    + destruct (QueueFacts.updFirst_spec _ _ _ _ _ Eu)
        as (l1 & l2 & Hl & _ & Pw & _).
      assert (Hin : In w (qpool s)) by (rewrite Hl; apply in_or_app; right; left; reflexivity).
      rewrite (H w Hin) in Pw. discriminate.
  - right. intros x Hx.
    pose proof (updFirst_none_inv _ _ _ Eu x Hx) as Hb. simpl in Hb.
    destruct (qbusy x); [reflexivity | discriminate].
Qed.

Lemma assignTasks_one_idle (s : qstate) (l1 l2 : list qworker) (y : qworker) :
  qpool s = l1 ++ y :: l2 -> qbusy y = false ->
  (forall x, In x (l1 ++ l2) -> qbusy x = true) ->
  work_conserving (assignTasks s).
Proof.
  intros Hp Hy Hb. unfold assignTasks, work_conserving.
  destruct (taskQueue s) as [|e q] eqn:Eq; [left; exact Eq |].
  rewrite Hp, updFirst_skip.
  - right. simpl. intros x Hx. apply in_app_or in Hx.
    destruct Hx as [Hx|[<-|Hx]]; [| reflexivity |];
      apply Hb, in_or_app; auto.
  - intros x Hx. rewrite (Hb x) by (apply in_or_app; auto). reflexivity.
  - rewrite Hy. reflexivity.
Qed.

(** [assignTasks] is called from [run] and from [handleWorkerResult], but
    not from the ['online'] handler: every event but a worker coming online
    keeps the pool from idling while tasks wait, and a worker coming online
    while tasks wait stays idle, the tasks queued, until the next [run] or
    result. *)
Theorem queue_work_conservation :
  (forall (c : qconfig) (s s' : qstate) (ev : qev),
      ev <> QOnline -> work_conserving s -> qstep c s ev = Some s' ->
      work_conserving s') /\
  (forall (c : qconfig) (s : qstate),
      building s <> O -> taskQueue s <> [] ->
      exists s', qstep c s QOnline = Some s' /\ ~ work_conserving s').
Proof.
  split.
  - intros c s s' ev Hev Hw Hst.
    destruct ev as [e|h|h| |]; simpl in Hst.
    + injection Hst as <-. unfold run. apply assignTasks_single. simpl.
      destruct Hw as [Hq|Hb]; [left; rewrite Hq; simpl; lia | right; exact Hb].
    + destruct (existsb (Nat.eqb h) (qdead s)); [discriminate |].
      unfold handleWorkerResult in Hst.
      destruct (updFirst (fun w => Nat.eqb (qh w) h) markIdle (qpool s))
        as [[w p']|] eqn:Eu; [|discriminate].
      injection Hst as <-.
      destruct (QueueFacts.updFirst_spec _ _ _ _ _ Eu)
        as (l1 & l2 & Hl & Hp' & _ & _).
      destruct Hw as [Hq|Hb].
      * unfold assignTasks, work_conserving. simpl. rewrite Hq.
        left. reflexivity.
      * apply (assignTasks_one_idle _ l1 l2 (markIdle w)); [exact Hp' | reflexivity |].
        intros x Hx. apply Hb. rewrite Hl. apply in_app_or in Hx.
        apply in_or_app. destruct Hx; [left | right; right]; assumption.
    + injection Hst as <-. exact Hw.
    + contradiction.
    + injection Hst as <-. right. intros w [].
  - intros c s Hb Hq. unfold qstep. destruct (building s) as [|b]; [contradiction |].
    eexists. split; [reflexivity |]. unfold work_conserving. simpl.
    intros [H|H]; [contradiction |].
    assert (Hin : In (mkQWorker (S (length (qpool s))) (nexth s) false None None)
                     (qpool s ++ [mkQWorker (S (length (qpool s))) (nexth s)
                                   false None None]))
      by (apply in_or_app; right; left; reflexivity).
    apply H in Hin. discriminate.
Qed.

Definition wc_entry (n : nat) : qentry := mkQEntry n n n.

Lemma queue_work_conservation_witness :
  work_conserving (run (wc_entry 2) (qinit (mkQConfig 1 true))) /\
  exists s', qstep (mkQConfig 1 true) (run (wc_entry 1) (qinit (mkQConfig 1 true)))
               QOnline = Some s' /\ ~ work_conserving s'.
Proof.
  split.
  - apply ((proj1 queue_work_conservation) (mkQConfig 1 true)
             (qinit (mkQConfig 1 true)) _ (QRun (wc_entry 2)));
      [discriminate | left; reflexivity | reflexivity].
  - apply ((proj2 queue_work_conservation) (mkQConfig 1 true)
             (run (wc_entry 1) (qinit (mkQConfig 1 true))));
      [discriminate | discriminate].
Defined.

(** [terminateAllWorkers] empties [this.pool] without removing the
    listeners: a result a worker still delivers finds no pool entry and
    [handleWorkerResult] throws (its task's promise never settles), and a
    later [run] posts nothing and leaves its task in [taskQueue]. *)
Theorem queue_after_shutdown (c : qconfig) (s : qstate) (h : nat) (e : qentry) :
  qstep c (terminateAllWorkers s) (QMsg h) = None /\
  qlog (run e (terminateAllWorkers s)) = qlog s /\
  taskQueue (run e (terminateAllWorkers s)) = taskQueue s ++ [e].
Proof.
  split; [| split].
  - simpl. destruct (existsb (Nat.eqb h) (qdead s)); reflexivity.
  - unfold run, assignTasks. simpl. destruct (taskQueue s ++ [e]); reflexivity.
  - unfold run, assignTasks. simpl.
    destruct (taskQueue s ++ [e]) eqn:E; reflexivity.
Qed.

(** The promises held by the pool's workers ([workerItem.resolve]). *)
Definition held (p : list qworker) : list nat :=
  flat_map (fun w => match qresolve w with Some x => [x] | None => [] end) p.

(** Every posted promise is settled, held by a pool worker, or was dropped
    (its worker terminated); idle workers hold none. *)
Definition sinv (s : qstate) : Prop :=
  (exists d, Permutation (posted (qlog s)) (settled s ++ held (qpool s) ++ d)) /\
  (forall w, In w (qpool s) -> qbusy w = false -> qresolve w = None).

Lemma held_app (l1 l2 : list qworker) : held (l1 ++ l2) = held l1 ++ held l2.
Proof. unfold held. apply flat_map_app. Qed.

Lemma held_cons_none (w : qworker) (l : list qworker) :
  qresolve w = None -> held (w :: l) = held l.
Proof. intros H. unfold held. simpl. rewrite H. reflexivity. Qed.

Lemma perm_post (P S H1 H2 d : list nat) (a : nat) :
  Permutation P (S ++ (H1 ++ H2) ++ d) ->
  Permutation (P ++ [a]) (S ++ (H1 ++ a :: H2) ++ d).
Proof.
  intros H. apply Permutation_trans with (a :: P);
    [apply (Permutation_app_comm P [a]) |].
  replace (S ++ (H1 ++ a :: H2) ++ d) with ((S ++ H1) ++ a :: (H2 ++ d))
    by (rewrite <- !app_assoc; reflexivity).
  apply Permutation_cons_app. rewrite <- !app_assoc.
  rewrite <- !app_assoc in H. exact H.
Qed.

Lemma perm_settle (P S r H1 H2 d : list nat) :
  Permutation P (S ++ (H1 ++ r ++ H2) ++ d) ->
  Permutation P ((S ++ r) ++ (H1 ++ H2) ++ d).
Proof.
  intros H. eapply Permutation_trans; [exact H |].
  rewrite <- !app_assoc. apply Permutation_app_head.
  apply Permutation_app_swap_app.
Qed.

Lemma assignTasks_sinv (s : qstate) : sinv s -> sinv (assignTasks s).
Proof.
  intros [[d Hp] Hi]. unfold assignTasks.
  destruct (taskQueue s) as [|e q]; [split; [exists d|]; assumption |].
  destruct (updFirst (fun w => negb (qbusy w)) (markBusy e) (qpool s))
    as [[w p']|] eqn:Eu; [| split; [exists d|]; assumption].
  destruct (QueueFacts.updFirst_spec _ _ _ _ _ Eu)
    as (l1 & l2 & Hl & Hp' & Pw & _).
  assert (Hw : qresolve w = None).
  { apply Hi; [rewrite Hl; apply in_or_app; right; left; reflexivity |].
    destruct (qbusy w); [discriminate | reflexivity]. }
  split.
  - exists d. simpl. rewrite Hp', QueueFacts.posted_app, held_app. simpl.
    change (held (markBusy e w :: l2)) with (e_promise e :: held l2).
    rewrite Hl, held_app, (held_cons_none w l2 Hw) in Hp.
    apply perm_post. exact Hp.
  - simpl. rewrite Hp'. intros x Hx Hb. apply in_app_or in Hx.
    destruct Hx as [Hx|[<-|Hx]]; [| discriminate |];
      apply Hi; try exact Hb; rewrite Hl; apply in_or_app; auto.
    right; right; exact Hx.
Qed.

Lemma qstep_sinv (c : qconfig) (s s' : qstate) (ev : qev) :
  sinv s -> qstep c s ev = Some s' -> sinv s'.
Proof.
  intros Hs Hst. destruct ev as [e|h|h| |]; simpl in Hst.
  - injection Hst as <-. apply assignTasks_sinv. exact Hs.
  - destruct (existsb (Nat.eqb h) (qdead s)); [discriminate |].
    unfold handleWorkerResult in Hst.
    destruct (updFirst (fun w => Nat.eqb (qh w) h) markIdle (qpool s))
      as [[w p']|] eqn:Eu; [|discriminate].
    injection Hst as <-. apply assignTasks_sinv.
    destruct (QueueFacts.updFirst_spec _ _ _ _ _ Eu)
      as (l1 & l2 & Hl & Hp' & _ & _).
    destruct Hs as [[d Hp] Hi].
    set (r := match qresolve w with Some x => [x] | None => [] end).
    assert (Hr : (match qresolve w with
                  | Some p => settled s ++ [p]
                  | None => settled s
                  end) = settled s ++ r)
      by (unfold r; destruct (qresolve w); [reflexivity | rewrite app_nil_r; reflexivity]).
    split.
    + exists d. simpl. rewrite Hr, QueueFacts.posted_app, Hp', held_app. simpl.
      rewrite app_nil_r.
      change (held (markIdle w :: l2)) with (held l2).
      rewrite Hl, held_app in Hp.
      change (held (w :: l2)) with (r ++ held l2) in Hp.
      apply perm_settle. exact Hp.
    + simpl. rewrite Hp'. intros x Hx Hb. apply in_app_or in Hx.
      destruct Hx as [Hx|[<-|Hx]]; [| reflexivity |];
        apply Hi; try exact Hb; rewrite Hl; apply in_or_app; auto.
      right; right; exact Hx.
  - injection Hst as <-. exact Hs.
  - destruct (building s) as [|b]; [discriminate |]. injection Hst as <-.
    destruct Hs as [[d Hp] Hi]. split.
    + exists d. simpl. rewrite held_app. unfold held at 2. simpl.
      rewrite app_nil_r. exact Hp.
    + simpl. intros x Hx Hb. apply in_app_or in Hx.
      destruct Hx as [Hx|[<-|[]]]; [exact (Hi x Hx Hb) | reflexivity].
  - injection Hst as <-. destruct Hs as [[d Hp] Hi]. split.
    + exists (held (qpool s) ++ d). exact Hp.
    + intros x [].
Qed.

Lemma qrun_sinv (c : qconfig) (evs : list qev) :
  forall s s', sinv s -> qrun c s evs = Some s' -> sinv s'.
Proof.
  induction evs as [|ev evs IH]; intros s s' Hs H; simpl in H.
  - injection H as <-. exact Hs.
  - destruct (qstep c s ev) as [s1|] eqn:E; [|discriminate].
    exact (IH s1 s' (qstep_sinv c s s1 ev Hs E) H).
Qed.

(** Each [run] call creates its own promise, so the submitted promises are
    distinct. Then no promise is ever resolved twice, and only promises of
    submitted tasks are resolved: a worker's result resolves the promise
    stored on that worker by [assignTasks], which [handleWorkerResult]
    clears. *)
Theorem settle_at_most_once (c : qconfig) (evs : list qev) (s : qstate)
  (Hrun : qrun c (qinit c) evs = Some s) (Hnd : NoDup (submitted evs)) :
  NoDup (settled s) /\ incl (settled s) (submitted evs).
Proof.
  assert (Hinit : sinv (qinit c)).
  { split; [exists []; apply Permutation_refl | intros x []]. }
  destruct (qrun_sinv c evs _ _ Hinit Hrun) as [[d Hp] _].
  pose proof (QueueFacts.qrun_fifo c evs _ _ Hrun) as Hf. simpl in Hf.
  split.
  - rewrite <- Hf in Hnd. apply NoDup_app_remove_r in Hnd.
    apply (Permutation_NoDup Hp) in Hnd. apply NoDup_app_remove_r in Hnd.
    exact Hnd.
  - intros x Hx. rewrite <- Hf. apply in_or_app. left.
    apply (Permutation_in _ (Permutation_sym Hp)). apply in_or_app. left.
    exact Hx.
Qed.

Definition settle_scenario : list qev :=
  [QOnline; QRun (wc_entry 1); QRun (wc_entry 2); QMsg 1; QMsg 1; QMsg 1].

Lemma settle_at_most_once_witness :
  exists s, (qrun (mkQConfig 1 true) (qinit (mkQConfig 1 true)) settle_scenario =
             Some s /\ NoDup (submitted settle_scenario)) /\
            settled s = [1; 2]%nat /\
            NoDup (settled s) /\ incl (settled s) (submitted settle_scenario).
Proof.
  eexists. split; [split; [reflexivity |] |].
  - simpl. constructor; [intros [H|[]]; discriminate |].
    constructor; [intros [] | constructor].
  - split; [reflexivity |].
    apply (settle_at_most_once (mkQConfig 1 true) settle_scenario);
      [reflexivity |].
    simpl. constructor; [intros [H|[]]; discriminate |].
    constructor; [intros [] | constructor].
Defined.

End QueueExtra.

(** * Further properties of the [src/index.js] memory gate and pool *)
Module IndexMore.
Import Mem DoubleFacts IndexPool.

(** The capacity flag [memPercent < this.memThreshold] that [getMemPercent]
    returns, by the value [toFixed(1)] gave: for a finite percentage it is
    [false] exactly when the percentage equals the threshold (past it the
    call throws) and [true] exactly when it is below; [NaN] compares false
    both ways and gives [false]; [-Infinity] gives [true]; [Infinity]
    throws. *)
Theorem getMemPercent_flag (A : num) (free : Z) (thr : Q) :
  match memPercent A free with
  | Fin x =>
      (getMemPercent A free thr = Return (JBool false) <-> (x == thr)%Q) /\
      (getMemPercent A free thr = Return (JBool true) <-> (x < thr)%Q)
  | NaN => getMemPercent A free thr = Return (JBool false)
  | PInf => getMemPercent A free thr = Throw 503
  | NInf => getMemPercent A free thr = Return (JBool true)
  end.
Proof.
  unfold getMemPercent.
  destruct (memPercent A free) as [x| | |]; simpl; try reflexivity.
  destruct (Qltb thr x) eqn:E1; destruct (Qltb x thr) eqn:E2;
    [apply Qltb_iff in E1, E2 | apply Qltb_iff in E1; apply Qltb_false in E2
    | apply Qltb_false in E1; apply Qltb_iff in E2
    | apply Qltb_false in E1, E2];
    split; split; intros H; try discriminate; try reflexivity; try lra;
    exfalso; lra.
Qed.

(** When [os.freemem()] reads 0 at module load, [freeMemoryAvailable] is
    0 and the gate never throws: [memUsed / 0] is [-Infinity] while some
    memory is free, so the flag is [true], and [NaN] when none is, so the
    flag is [false]. *)
Theorem getMemPercent_zero_baseline (F : Z) (thr : Q) (HF : 0 <= F < 2 ^ 53) :
  getMemPercent (toMB 0) F thr = Return (JBool (0 <? F)).
Proof.
  destruct (Z.eq_dec F 0) as [->|HF0].
  - unfold getMemPercent.
    replace (memPercent (toMB 0) 0) with NaN by (vm_compute; reflexivity).
    reflexivity.
  - replace (0 <? F) with true by (symmetry; apply Z.ltb_lt; lia).
    destruct (toMB_exact F) as [m [Em Hm]]; [lia |].
    unfold getMemPercent, memPercent. rewrite Em.
    replace (toMB 0) with (Fin 0) by (vm_compute; reflexivity).
    change (num_sub (Fin 0) (Fin m)) with (dbl (0 - m)).
    rewrite (dbl_proper _ (inject_Z (- F) * pow2 (-20)))
      by (rewrite Hm, inject_Z_opp; ring).
    destruct (dbl_exact (- F) (-20)) as [a [Ea Ha]]; [lia | lia |].
    rewrite Ea.
    assert (Hneg : (a < 0)%Q).
    { rewrite Ha. rewrite inject_Z_opp.
      assert (0 < inject_Z F)%Q
        by (change 0%Q with (inject_Z 0); rewrite <- Zlt_Qlt; lia).
      pose proof (pow2_pos (-20)).
      assert (0 < inject_Z F * pow2 (-20))%Q by (apply Qmult_lt_0_compat; assumption).
      setoid_replace (- inject_Z F * pow2 (-20))%Q with (- (inject_Z F * pow2 (-20)))%Q
        by ring.
      lra. }
    assert (D : num_div (Fin a) (Fin 0) = NInf).
    { unfold num_div. change (Qeq_bool 0 0) with true. cbv beta iota.
      rewrite (proj1 (Qlt_alt _ _) Hneg). reflexivity. }
    rewrite D. reflexivity.
Qed.

Lemma getMemPercent_zero_baseline_witness :
  (0 <= 100 < 2 ^ 53) /\ getMemPercent (toMB 0) 100 90 = Return (JBool true).
Proof.
  split; [lia |].
  apply (getMemPercent_zero_baseline 100 90). lia.
Defined.

(** [k] [run] calls one after the other whose tasks fail in the worker. *)
Fixpoint runErrSeq (c : config) (env : nat -> spawn) (free : Z) (k : nat)
  (s : istate) : option istate :=
  match k with
  | O => Some s
  | S k' =>
      match run c env true free ExecError s with
      | Some (s1, RespErr _) => runErrSeq c env free k' s1
      | _ => None
      end
  end.

(** The state after a failure keeps everything but the pool and the error
    log. *)
Definition same_but_pool (s s' : istate) : Prop :=
  inflight s' = inflight s /\ pending s' = pending s /\
  spawned s' = spawned s /\ terminated s' = terminated s.

Lemma run_error_drops (c : config) (env : nat -> spawn) (free : Z)
  (s : istate) (w : worker) (rest : list worker) :
  pool s = w :: rest ->
  exists st s1, run c env true free ExecError s = Some (s1, RespErr st) /\
                pool s1 = rest /\ same_but_pool s s1.
Proof.
  intros Hp. unfold run. rewrite Hp. simpl. rewrite Hp.
  destruct (getMemPercent _ _ _) as [st|v]; simpl;
    rewrite IndexFacts.terminateExcessWorkers_id; do 2 eexists;
    (split; [reflexivity |]).
  - repeat split.
  - unfold log_error. destruct (handleError w); repeat split.
Qed.

(** A failing task (the worker's ['error'], or the memory gate throwing)
    costs the pool the worker it ran on: [k] failures in a row on a pool of
    at least [k] workers remove its first [k] workers, and no worker is
    created or terminated in the meantime. The pool is refilled only once
    it is empty. *)
Theorem run_failures_drain (c : config) (env : nat -> spawn) (free : Z)
  (k : nat) (s : istate) (Hk : (k <= length (pool s))%nat) :
  exists s', runErrSeq c env free k s = Some s' /\
             pool s' = skipn k (pool s) /\ same_but_pool s s'.
Proof.
  revert s Hk. induction k as [|k IH]; intros s Hk; simpl.
  - exists s. repeat split.
  - destruct (pool s) as [|w rest] eqn:Hp; simpl in Hk; [lia |].
    destruct (run_error_drops c env free s w rest Hp)
      as (st & s1 & -> & Hp1 & Hi1 & Hpe1 & Hs1 & Ht1).
    destruct (IH s1) as (s' & Hr & Hp' & Hi & Hpe & Hs & Ht); [rewrite Hp1; lia |].
    exists s'. rewrite Hp1 in Hp'. unfold same_but_pool. simpl skipn.
    rewrite Hi, Hpe, Hs, Ht. repeat split; assumption.
Qed.

Lemma run_failures_drain_witness :
  (2 <= length (pool IndexRun.rr_state))%nat /\
  exists s', runErrSeq (mkConfig 3 90 true 1000) (fun _ => SpawnOk) 500 2
               IndexRun.rr_state = Some s' /\
             pool s' = [mkWorker 3 2 true] /\ same_but_pool IndexRun.rr_state s'.
Proof.
  split; [simpl; lia |].
  apply (run_failures_drain (mkConfig 3 90 true 1000) (fun _ => SpawnOk) 500
           2 IndexRun.rr_state).
  simpl. lia.
Defined.

End IndexMore.
